(** * A bounded connection pool over a buffered Go channel (channel.go, pool.go)

    Shallow embedding of [channelPool] and its methods.  The Go code is
    imperative: it mutates the fields of one [channelPool] object, sends to
    and receives from one buffered channel, and calls user callbacks that
    have effects of their own.  The embedding threads an explicit [State]
    through a small monad whose results also record the ways a Go call can
    fail to return (run-time panic, blocking for ever).

    Modelling decisions, all visible in the definitions below:
    - an [interface{}] value is [option handle]: [None] is Go's [nil], and
      [Some h] is a non-nil value whose identity is the handle [h];
    - an [error] is [option errv], [None] being [nil];
    - [time.Time] and [time.Duration] are integers (nanoseconds), with
      [t.Add(d)] as [t + d] and [Before] as [<];
    - user callbacks are total functions over a world [W] of the caller's
      choosing; they do not call back into the pool.  [time.Now()] reads the
      clock of that world, so a callback may let time pass;
    - every call of a callback is appended to a [trace], which is how the
      number of creation and destruction calls is observed;
    - whether the runtime can allocate a channel of a given capacity is a
      parameter, [chan_fits]; [make] panics when it cannot;
    - one pool allocates exactly one channel (the [make] in
      [NewChannelPool]); the heap therefore has a single channel cell,
      [store], and a channel reference is [nil] or points at that cell.  A
      snapshot taken by [getConns] keeps pointing at the cell after
      [Release] has set [c.conns] to [nil];
    - operations run one at a time (no interleaving inside a method). *)

From Stdlib Require Import String ZArith List Bool Lia.
Import ListNotations.
Local Open Scope Z_scope.

(** ** Values *)

Definition handle := nat.

(** [interface{}]: [None] is [nil]. *)
Definition iface := option handle.

Definition Time := Z.
Definition Duration := Z.

(** Error values.  The first five are the [errors.New] values of the source,
    [ErrFill] is the [fmt.Errorf] of the pre-warm loop, [ErrUser] is whatever
    a user callback returns. *)
Inductive errv : Type :=
| ErrClosed                      (* errors.New("pool is closed") *)
| ErrNilConn                     (* errors.New("connection is nil. rejecting") *)
| ErrCapacity                    (* errors.New("invalid capacity settings") *)
| ErrFactoryFunc                 (* errors.New("invalid factory func settings") *)
| ErrCloseFunc                   (* errors.New("invalid close func settings") *)
| ErrFill (cause : errv)         (* fmt.Errorf("factory is not able to fill the pool: %s", err) *)
| ErrUser (msg : string).

(** [error]: [None] is [nil]. *)
Definition error := option errv.

(** The errors [NewChannelPool] reports for a bad configuration. *)
Definition is_ConfigError (e : errv) : bool :=
  match e with
  | ErrCapacity | ErrFactoryFunc | ErrCloseFunc => true
  | _ => false
  end.

(** [type idleConn struct { conn interface{}; t time.Time }] *)
Record idleConn : Type := mkIdle { conn : iface; t : Time }.

(** A buffered channel of [*idleConn]: the queued elements, oldest first, the
    capacity given to [make], and whether [close] was called on it. *)
Record chan : Type := mkChan { buf : list idleConn; cap : Z; closed : bool }.

(** References.  There is one channel cell and one pool object. *)
Inductive chanptr : Type := store_addr.
Inductive poolptr : Type := pool_addr.

(** What the instrumentation records: each call of a user callback, and the
    line printed by [fmt.Println] in [Get]. *)
Inductive Event : Type :=
| EvFactory
| EvClose (c : iface)
| EvPing (c : iface)
| EvPrintln (e : errv).

Definition iface_eqb (a b : iface) : bool :=
  match a, b with
  | None, None => true
  | Some x, Some y => Nat.eqb x y
  | _, _ => false
  end.

Definition is_factory (e : Event) : bool :=
  match e with EvFactory => true | _ => false end.

Definition is_close (e : Event) : bool :=
  match e with EvClose _ => true | _ => false end.

Definition is_close_of (c : iface) (e : Event) : bool :=
  match e with EvClose c' => iface_eqb c c' | _ => false end.

(** Number of calls of the creation callback in a trace. *)
Definition factory_calls (tr : list Event) : nat := length (filter is_factory tr).

(** Number of calls of the destruction callback in a trace, on any resource
    and on resource [c]. *)
Definition close_calls (tr : list Event) : nat := length (filter is_close tr).
Definition close_calls_of (c : iface) (tr : list Event) : nat :=
  length (filter (is_close_of c) tr).

(** The world of the callbacks carries the clock read by [time.Now()]. *)
Class Clock (W : Type) : Type := clock : W -> Time.

(** The Go runtime decides whether the buffer of a channel of a given
    capacity can be allocated; the bound depends on the platform and is not
    part of the source.  [make] panics when the buffer does not fit. *)
Class Runtime : Type := chan_fits : Z -> bool.

(** ** Configuration *)

Module Config.
(** [type Config struct]; a [nil] func field is [None]. *)
Record t (W : Type) : Type := mk {
  InitialCap : Z;
  MaxCap : Z;
  Factory : option (W -> (iface * error) * W);
  Close : option (iface -> W -> error * W);
  Ping : option (iface -> W -> error * W);
  IdleTimeout : Duration
}.
Arguments mk {W}.
Arguments InitialCap {W}.
Arguments MaxCap {W}.
Arguments Factory {W}.
Arguments Close {W}.
Arguments Ping {W}.
Arguments IdleTimeout {W}.
End Config.

Section Pool.

Context {W : Type} `{Clock W} `{Runtime}.

(** ** Pool state *)

(** [type channelPool struct]; [mu] is [true] while the mutex is held. *)
Record channelPool : Type := mkPool {
  mu : bool;
  conns : option chanptr;
  factory : option (W -> (iface * error) * W);
  close : option (iface -> W -> error * W);
  ping : option (iface -> W -> error * W);
  idleTimeout : Duration
}.

Record State : Type := mkState {
  pool : channelPool;
  store : chan;
  world : W;
  trace : list Event
}.

Definition set_mu (b : bool) (c : channelPool) : channelPool :=
  mkPool b (conns c) (factory c) (close c) (ping c) (idleTimeout c).
Definition set_conns (p : option chanptr) (c : channelPool) : channelPool :=
  mkPool (mu c) p (factory c) (close c) (ping c) (idleTimeout c).
Definition set_factory (f : option (W -> (iface * error) * W)) (c : channelPool) : channelPool :=
  mkPool (mu c) (conns c) f (close c) (ping c) (idleTimeout c).
Definition set_close (f : option (iface -> W -> error * W)) (c : channelPool) : channelPool :=
  mkPool (mu c) (conns c) (factory c) f (ping c) (idleTimeout c).
Definition set_ping (f : option (iface -> W -> error * W)) (c : channelPool) : channelPool :=
  mkPool (mu c) (conns c) (factory c) (close c) f (idleTimeout c).

Definition with_pool (c : channelPool) (s : State) : State :=
  mkState c (store s) (world s) (trace s).
Definition with_store (ch : chan) (s : State) : State :=
  mkState (pool s) ch (world s) (trace s).
Definition with_world (w : W) (s : State) : State :=
  mkState (pool s) (store s) w (trace s).
Definition log (e : Event) (s : State) : State :=
  mkState (pool s) (store s) (world s) (trace s ++ [e]).

(** ** The monad of pool operations *)

(** A call returns a value and a new state, or panics, or blocks for ever
    (a lock that is already held, a send on a full channel that nobody
    drains), or the model's loop bound ran out. *)
Inductive result (A : Type) : Type :=
| Ok (a : A) (s : State)
| Panic
| Deadlock
| OutOfFuel.
Arguments Ok {A}.
Arguments Panic {A}.
Arguments Deadlock {A}.
Arguments OutOfFuel {A}.

Definition M (A : Type) : Type := State -> result A.

Definition ret {A : Type} (a : A) : M A := fun s => Ok a s.

Definition bind {A B : Type} (m : M A) (k : A -> M B) : M B :=
  fun s =>
    match m s with
    | Ok a s' => k a s'
    | Panic => Panic
    | Deadlock => Deadlock
    | OutOfFuel => OutOfFuel
    end.

Notation "x <- m ;; k" := (bind m (fun x => k))
  (at level 61, m at next level, right associativity).
Notation "' pat <- m ;; k" := (bind m (fun x => match x with pat => k end))
  (at level 61, pat pattern, m at next level, right associativity).
Notation "m ;; k" := (bind m (fun _ => k))
  (at level 61, right associativity).

Definition panic {A : Type} : M A := fun _ => Panic.

(** A send on, or a receive from, a nil channel blocks for ever. *)
Definition block {A : Type} : M A := fun _ => Deadlock.

(** Read a field of the pool object, [c.f]. *)
Definition field {A : Type} (proj : channelPool -> A) : M A :=
  fun s => Ok (proj (pool s)) s.

(** Assign a field of the pool object, [c.f = v]. *)
Definition assign (upd : channelPool -> channelPool) : M unit :=
  fun s => Ok tt (with_pool (upd (pool s)) s).

(** [c.mu.Lock()]: sync.Mutex is not reentrant. *)
Definition Lock : M unit :=
  fun s => if mu (pool s) then Deadlock else Ok tt (with_pool (set_mu true (pool s)) s).

(** [c.mu.Unlock()]: unlocking a free mutex is a fatal error. *)
Definition Unlock : M unit :=
  fun s => if mu (pool s) then Ok tt (with_pool (set_mu false (pool s)) s) else Panic.

(** [time.Now()] *)
Definition time_Now : M Time := fun s => Ok (clock (world s)) s.

(** Calls of function values.  Calling a nil func panics. *)
Definition call_factory (f : option (W -> (iface * error) * W)) : M (iface * error) :=
  match f with
  | None => panic
  | Some g => fun s => let (r, w) := g (world s) in Ok r (log EvFactory (with_world w s))
  end.

Definition call_close (f : option (iface -> W -> error * W)) (c : iface) : M error :=
  match f with
  | None => panic
  | Some g => fun s => let (r, w) := g c (world s) in Ok r (log (EvClose c) (with_world w s))
  end.

Definition call_ping (f : option (iface -> W -> error * W)) (c : iface) : M error :=
  match f with
  | None => panic
  | Some g => fun s => let (r, w) := g c (world s) in Ok r (log (EvPing c) (with_world w s))
  end.

(** [fmt.Println("conn is not able to be connected: ", err)] *)
Definition Println (e : errv) : M unit := fun s => Ok tt (log (EvPrintln e) s).

(** ** Channel operations on the store *)

Definition chan_full (ch : chan) : bool := cap ch <=? Z.of_nat (length (buf ch)).

(** What a [select] with a receive case and a [default] does. *)
Inductive recv (A : Type) : Type :=
| Received (x : option A)   (* a value, or nil from a closed and empty channel *)
| NotReady.                  (* the default case *)
Arguments Received {A}.
Arguments NotReady {A}.

(** [select { case x := <-ch: ... default: ... }] *)
Definition chan_try_recv (p : chanptr) : M (recv idleConn) :=
  fun s =>
    match buf (store s) with
    | x :: rest => Ok (Received (Some x)) (with_store (mkChan rest (cap (store s)) (closed (store s))) s)
    | [] => if closed (store s) then Ok (Received None) s else Ok NotReady s
    end.

(** [select { case ch <- x: ... default: ... }]; [true] when the send case
    ran.  A send on a closed channel panics. *)
Definition chan_try_send (p : chanptr) (x : idleConn) : M bool :=
  fun s =>
    if closed (store s) then Panic
    else if chan_full (store s) then Ok false s
    else Ok true (with_store (mkChan (buf (store s) ++ [x]) (cap (store s)) false) s).

(** [ch <- x]: blocks while the buffer is full. *)
Definition chan_send (p : chanptr) (x : idleConn) : M unit :=
  fun s =>
    if closed (store s) then Panic
    else if chan_full (store s) then Deadlock
    else Ok tt (with_store (mkChan (buf (store s) ++ [x]) (cap (store s)) false) s).

(** [close(ch)]: closing a closed channel panics. *)
Definition chan_close (p : chanptr) : M unit :=
  fun s =>
    if closed (store s) then Panic
    else Ok tt (with_store (mkChan (buf (store s)) (cap (store s)) true) s).

(** [make(chan *idleConn, n)]: panics ([makechan: size out of range]) when
    [n] is negative or the buffer is too large for the runtime. *)
Definition make (n : Z) : M chan :=
  if (n <? 0) || negb (chan_fits n)
  then panic
  else ret (mkChan [] n false).

(** [len(ch)]; the length of a nil channel is 0. *)
Definition chan_len (p : option chanptr) : M Z :=
  fun s =>
    match p with
    | None => Ok 0 s
    | Some _ => Ok (Z.of_nat (length (buf (store s)))) s
    end.

(** ** Methods of [channelPool] *)

(** [func (c *channelPool) getConns() chan *idleConn] *)
Definition getConns : M (option chanptr) :=
  Lock ;;
  conns <- field conns ;;
  Unlock ;;
  ret conns.

(** [func (c *channelPool) Close(conn interface{}) error] *)
Definition Close (conn : iface) : M error :=
  match conn with
  | None => ret (Some ErrNilConn)
  | Some _ =>
      Lock ;;
      f <- field close ;;
      match f with
      | None => Unlock ;; ret None
      | Some _ => err <- call_close f conn ;; Unlock ;; ret err
      end
  end.

(** [func (c *channelPool) Ping(conn interface{}) error] *)
Definition Ping (conn : iface) : M error :=
  match conn with
  | None => ret (Some ErrNilConn)
  | Some _ => f <- field ping ;; call_ping f conn
  end.

(** The [for { select { ... } }] of [Get], on the snapshot [conns].  Each
    unit of [fuel] pays for one iteration. *)
Fixpoint Get_loop (fuel : nat) (conns : chanptr) : M (iface * error) :=
  match fuel with
  | O => fun _ => OutOfFuel
  | S fuel' =>
      r <- chan_try_recv conns ;;
      match r with
      | Received None => ret (None, Some ErrClosed)
      | Received (Some wrapConn) =>
          timeout <- field idleTimeout ;;
          expired <- (if 0 <? timeout
                      then now <- time_Now ;; ret (t wrapConn + timeout <? now)
                      else ret false) ;;
          if expired : bool
          then Close (conn wrapConn) ;; Get_loop fuel' conns
          else
            p <- field ping ;;
            match p with
            | Some _ =>
                err <- Ping (conn wrapConn) ;;
                match err with
                | Some e => Println e ;; Get_loop fuel' conns
                | None => ret (conn wrapConn, None)
                end
            | None => ret (conn wrapConn, None)
            end
      | NotReady =>
          Lock ;;
          f <- field factory ;;
          match f with
          | None => Unlock ;; Get_loop fuel' conns
          | Some _ =>
              '(conn, err) <- call_factory f ;;
              Unlock ;;
              match err with
              | Some e => ret (None, Some e)
              | None => ret (conn, None)
              end
          end
      end
  end.

(** [func (c *channelPool) Get() (interface{}, error)] *)
Definition Get (fuel : nat) : M (iface * error) :=
  conns <- getConns ;;
  match conns with
  | None => ret (None, Some ErrClosed)
  | Some p => Get_loop fuel p
  end.

(** [func (c *channelPool) Put(conn interface{}) error] *)
Definition Put (conn : iface) : M error :=
  match conn with
  | None => ret (Some ErrNilConn)
  | Some _ =>
      Lock ;;
      conns <- field conns ;;
      match conns with
      | None => Unlock ;; Close conn
      | Some p =>
          now <- time_Now ;;
          sent <- chan_try_send p (mkIdle conn now) ;;
          if sent : bool
          then Unlock ;; ret None
          else Unlock ;; Close conn
      end
  end.

(** The [for wrapConn := range conns] of [Release]: [pending] is what the
    closed channel still holds when the loop starts; each iteration receives
    the oldest element and calls the captured close function on it. *)
Fixpoint Release_range (closeFun : option (iface -> W -> error * W))
  (pending : list idleConn) : M unit :=
  match pending with
  | [] => ret tt
  | wrapConn :: rest =>
      (fun s => Ok tt (with_store (mkChan rest (cap (store s)) (closed (store s))) s)) ;;
      call_close closeFun (conn wrapConn) ;;
      Release_range closeFun rest
  end.

(** [func (c *channelPool) Release()] *)
Definition Release : M unit :=
  Lock ;;
  conns <- field conns ;;
  assign (set_conns None) ;;
  assign (set_factory None) ;;
  assign (set_ping None) ;;
  closeFun <- field close ;;
  assign (set_close None) ;;
  Unlock ;;
  match conns with
  | None => ret tt
  | Some p =>
      chan_close p ;;
      fun s => Release_range closeFun (buf (store s)) s
  end.

(** [func (c *channelPool) Len() int] *)
Definition Len : M Z :=
  conns <- getConns ;;
  chan_len conns.

(** The pre-warm loop of [NewChannelPool], with [n] iterations left. *)
Fixpoint prewarm (n : nat) : M (option poolptr * error) :=
  match n with
  | O => ret (Some pool_addr, None)
  | S n' =>
      f <- field factory ;;
      '(conn, err) <- call_factory f ;;
      match err with
      | Some e => Release ;; ret (None, Some (ErrFill e))
      | None =>
          conns <- field conns ;;
          now <- time_Now ;;
          match conns with
          | None => block
          | Some p => chan_send p (mkIdle conn now)
          end ;;
          prewarm n'
      end
  end.

(** [func NewChannelPool(poolConfig *Config) (Pool, error)].  The new pool
    object and its channel replace whatever the state held. *)
Definition NewChannelPool (poolConfig : Config.t W) : M (option poolptr * error) :=
  if (Config.InitialCap poolConfig <? 0)
     || (Config.MaxCap poolConfig <=? 0)
     || (Config.MaxCap poolConfig <? Config.InitialCap poolConfig)
  then ret (None, Some ErrCapacity)
  else
    match Config.Factory poolConfig with
    | None => ret (None, Some ErrFactoryFunc)
    | Some _ =>
        match Config.Close poolConfig with
        | None => ret (None, Some ErrCloseFunc)
        | Some _ =>
            conns <- make (Config.MaxCap poolConfig) ;;
            (fun s => Ok tt (mkState
                               (mkPool false (Some store_addr)
                                  (Config.Factory poolConfig)
                                  (Config.Close poolConfig)
                                  None
                                  (Config.IdleTimeout poolConfig))
                               conns
                               (world s) (trace s))) ;;
            match Config.Ping poolConfig with
            | Some _ => assign (set_ping (Config.Ping poolConfig))
            | None => ret tt
            end ;;
            prewarm (Z.to_nat (Config.InitialCap poolConfig))
        end
    end.

(** ** Sequences of calls *)

(** A call of one of the methods of the [Pool] interface by a client. *)
Inductive call : Type :=
| CallGet (fuel : nat)
| CallPut (c : iface)
| CallClose (c : iface)
| CallRelease
| CallLen.

(** The client makes the call and drops what it returns. *)
Definition do_call (k : call) : M unit :=
  match k with
  | CallGet fuel => Get fuel ;; ret tt
  | CallPut c => Put c ;; ret tt
  | CallClose c => Close c ;; ret tt
  | CallRelease => Release
  | CallLen => Len ;; ret tt
  end.

Fixpoint do_calls (ks : list call) : M unit :=
  match ks with
  | [] => ret tt
  | k :: rest => do_call k ;; do_calls rest
  end.

(** ** Observations used in the statements *)

(** The world after the destruction callback [g] has run on the resource of
    each entry of [l], oldest first. *)
Fixpoint close_all (g : iface -> W -> error * W) (l : list idleConn) (w : W) : W :=
  match l with
  | [] => w
  | e :: rest => close_all g rest (snd (g (conn e) w))
  end.

(** [n] successive calls of the creation callback [f] from world [w] that all
    succeed: the entries they yield, each stamped with the time read after
    its call, and the world they leave.  [None] when one of the calls
    fails. *)
Fixpoint fill (f : W -> (iface * error) * W) (n : nat) (w : W) : option (list idleConn * W) :=
  match n with
  | O => Some ([], w)
  | S n' =>
      match f w with
      | ((c, None), w1) =>
          match fill f n' w1 with
          | Some (l, w2) => Some (mkIdle c (clock w1) :: l, w2)
          | None => None
          end
      | ((_, Some _), _) => None
      end
  end.

(** What [Get] returns from the outcome [r] of a call of the creation
    callback: [return nil, err] or [return conn, nil]. *)
Definition created (r : (iface * error) * W) : iface * error :=
  match snd (fst r) with
  | Some err => (None, Some err)
  | None => (fst (fst r), None)
  end.

(** The events of destroying each entry of [l], oldest first. *)
Definition close_events (l : list idleConn) : list Event :=
  map (fun e => EvClose (conn e)) l.

(** A pool between two operations, after a successful [NewChannelPool] and
    before [Release]: the mutex is free, the store is referenced, open and
    within its capacity, and the two required callbacks are present. *)
Record open_pool (s : State) : Prop := mkOpen {
  open_mu : mu (pool s) = false;
  open_conns : conns (pool s) = Some store_addr;
  open_factory : factory (pool s) <> None;
  open_close : close (pool s) <> None;
  open_store : closed (store s) = false;
  open_cap : 0 < cap (store s);
  open_len : Z.of_nat (length (buf (store s))) <= cap (store s)
}.

(** A pool after [Release]: every reference of the pool object is nil. *)
Record released_pool (s : State) : Prop := mkReleased {
  rel_mu : mu (pool s) = false;
  rel_conns : conns (pool s) = None;
  rel_factory : factory (pool s) = None;
  rel_close : close (pool s) = None;
  rel_ping : ping (pool s) = None
}.

(** ** Clients and observations for whole runs *)

(** A [Get] has fuel for a store of [n] entries: one iteration per entry and
    one more.  The other calls need none. *)
Definition well_fuelled (n : nat) (k : call) : Prop :=
  match k with
  | CallGet fuel => (n < fuel)%nat
  | _ => True
  end.

(** A client returning the resources [cs] one after the other. *)
Fixpoint put_all (cs : list iface) : M (list error) :=
  match cs with
  | [] => ret []
  | c :: rest => err <- Put c ;; errs <- put_all rest ;; ret (err :: errs)
  end.

(** A client borrowing [n] times in a row. *)
Fixpoint get_n (fuel n : nat) : M (list (iface * error)) :=
  match n with
  | O => ret []
  | S n' => r <- Get fuel ;; rs <- get_n fuel n' ;; ret (r :: rs)
  end.

(** Up to [n] successive calls of the creation callback [f] from world [w],
    the last of which fails: the entries the earlier calls yielded, the
    error, and the world after the failing call.  [None] when the first [n]
    calls all succeed. *)
Fixpoint fill_fails (f : W -> (iface * error) * W) (n : nat) (w : W)
  : option (list idleConn * errv * W) :=
  match n with
  | O => None
  | S n' =>
      match f w with
      | ((_, Some e), w1) => Some ([], e, w1)
      | ((c, None), w1) =>
          match fill_fails f n' w1 with
          | Some (l, e, w2) => Some (mkIdle c (clock w1) :: l, e, w2)
          | None => None
          end
      end
  end.

(** What one run of the loop of [Get] from state [s] may end in, [res] being
    its result: it returned in a state [s'] with the pool object untouched
    and the store still open; it removed the entries [dropped] from the
    front of the store and added the events [added] to the trace, among them
    destruction calls on resources of [dropped] only, at most one for each;
    and either it served the next entry [e], calling the creation callback
    not at all (and, if a validation callback is configured, [e] holds a
    non-nil resource that the callback accepted), or it emptied the store
    and returned the outcome of the single creation call it made. *)
Definition Get_outcome (s : State) (res : result (iface * error)) : Prop :=
  exists r s' dropped added,
    res = Ok r s' /\
    pool s' = pool s /\
    cap (store s') = cap (store s) /\ closed (store s') = closed (store s) /\
    trace s' = trace s ++ added /\
    (close_calls added <= length dropped)%nat /\
    (forall c, In (EvClose c) added -> In c (map conn dropped)) /\
    ((exists e,
        buf (store s) = dropped ++ e :: buf (store s') /\
        r = (conn e, None) /\
        factory_calls added = O /\
        (forall g, ping (pool s) = Some g ->
           conn e <> None /\ exists w0, fst (g (conn e) w0) = None))
     \/
     (buf (store s) = dropped /\ buf (store s') = [] /\
      factory_calls added = 1%nat /\
      exists f w1, factory (pool s) = Some f /\ r = created (f w1))).

End Pool.

Arguments channelPool W : clear implicits.
Arguments State W : clear implicits.
Arguments result W A : clear implicits.
Arguments M W A : clear implicits.
Arguments open_pool {W}.
Arguments released_pool {W}.
Arguments Get_outcome {W}.
Arguments Ok {W A}.
Arguments Panic {W A}.
Arguments Deadlock {W A}.
Arguments OutOfFuel {W A}.

(** ** A concrete world for running the model

    The world is the current time and the next unused handle.  The creation
    callback hands out fresh handles, the destruction callback succeeds, and
    there are two validation callbacks, one that accepts every resource and
    one that rejects every resource. *)

Module Demo.

Definition World : Type := Time * handle.

#[global] Instance demo_clock : Clock World := fun w => fst w.

(** A runtime that allocates channels of up to 2^20 entries. *)
#[global] Instance demo_runtime : Runtime := fun n => n <=? 1048576.

Definition new_conn (w : World) : (iface * error) * World :=
  ((Some (snd w), None), (fst w, S (snd w))).

Definition broken_factory (w : World) : (iface * error) * World :=
  ((None, Some (ErrUser "dial failed")), w).

Definition close_conn (c : iface) (w : World) : error * World := (None, w).

Definition ping_ok (c : iface) (w : World) : error * World := (None, w).

Definition ping_down (c : iface) (w : World) : error * World :=
  (Some (ErrUser "down"), w).

Definition config (initial max : Z) (ping : option (iface -> World -> error * World))
  (timeout : Duration) : Config.t World :=
  Config.mk initial max (Some new_conn) (Some close_conn) ping timeout.

(** The state before any pool exists, at time [now]. *)
Definition boot (now : Time) : State World :=
  mkState (mkPool false None None None None 0) (mkChan [] 0 false) (now, O) [].

(** The state an operation leaves behind; [boot] again if it did not return. *)
Definition after {A : Type} (r : result World A) : State World :=
  match r with
  | Ok _ s => s
  | _ => boot 0
  end.

(** Time passing between two operations. *)
Definition elapse (d : Duration) (s : State World) : State World :=
  with_world (fst (world s) + d, snd (world s)) s.

(** An open pool of capacity 3 holding resources 0 and 1; no validation, no
    idle timeout. *)
Definition warm : State World :=
  after (NewChannelPool (config 2 3 None 0) (boot 100)).

(** [warm] after [Release]. *)
Definition shut : State World := after (Release warm).


(** An open pool of capacity 2 holding resources 0 and 1: the store is
    full. *)
Definition full : State World :=
  after (NewChannelPool (config 2 2 None 0) (boot 100)).

(** An open pool holding resource 0, whose validation rejects everything. *)
Definition guarded : State World :=
  after (NewChannelPool (config 1 3 (Some ping_down) 0) (boot 100)).

(** An open pool with idle timeout 10 holding resource 0, stored at time 100
    and looked at at time 150. *)
Definition stale : State World :=
  elapse 50 (after (NewChannelPool (config 1 3 None 10) (boot 100))).

(** A creation callback that succeeds once and fails from then on. *)
Definition flaky_factory (w : World) : (iface * error) * World :=
  if (snd w <? 1)%nat then new_conn w else broken_factory w.

(** An open, empty pool of capacity 3 without validation and idle timeout. *)
Definition blank : State World :=
  after (NewChannelPool (config 0 3 None 0) (boot 100)).

(** An open, empty pool of capacity 3 with idle timeout 10, at time 100. *)
Definition timed : State World :=
  after (NewChannelPool (config 0 3 None 10) (boot 100)).

(** An open pool with idle timeout 10 at time 150: resources 0 and 1 were
    stored at time 100, resource 7 has just been returned. *)
Definition mixed : State World :=
  after (Put (Some 7%nat)
           (elapse 50 (after (NewChannelPool (config 2 3 None 10) (boot 100))))).

(** An open pool holding resources 0 and 1, whose validation accepts
    everything. *)
Definition checked : State World :=
  after (NewChannelPool (config 2 3 (Some ping_ok) 0) (boot 100)).

End Demo.

(** * Properties *)

Ltac open_state s :=
  let m := fresh "m" in let cs := fresh "cs" in let f := fresh "f" in
  let cl := fresh "cl" in let pg := fresh "pg" in let it := fresh "it" in
  let b := fresh "b" in let cp := fresh "cp" in let cd := fresh "cd" in
  let w := fresh "w" in let tr := fresh "tr" in
  destruct s as [[m cs f cl pg it] [b cp cd] w tr]; simpl in *.

Ltac run :=
  repeat progress (unfold Get, Put, Close, Ping, Len, Release, getConns, chan_len, chan_close,
    chan_try_send, chan_try_recv, chan_send, call_close, call_ping, call_factory,
    Println, time_Now, Lock, Unlock, assign, field, panic, block, bind, ret,
    with_pool, with_store, with_world, log, set_mu, set_conns, set_factory,
    set_close, set_ping, chan_full; simpl).

Section Properties.

Context {W : Type} `{Clock W} `{Runtime}.

Implicit Types (s : State W) (c : iface) (e : idleConn).

(** ** Counting calls in a trace *)

Lemma factory_calls_app (tr1 tr2 : list Event) :
  factory_calls (tr1 ++ tr2) = (factory_calls tr1 + factory_calls tr2)%nat.
Proof. unfold factory_calls. now rewrite filter_app, length_app. Qed.

Lemma close_calls_of_app c (tr1 tr2 : list Event) :
  close_calls_of c (tr1 ++ tr2) = (close_calls_of c tr1 + close_calls_of c tr2)%nat.
Proof. unfold close_calls_of. now rewrite filter_app, length_app. Qed.

Lemma close_calls_app (tr1 tr2 : list Event) :
  close_calls (tr1 ++ tr2) = (close_calls tr1 + close_calls tr2)%nat.
Proof. unfold close_calls. now rewrite filter_app, length_app. Qed.

Lemma factory_calls_repeat (n : nat) : factory_calls (repeat EvFactory n) = n.
Proof.
  unfold factory_calls. induction n as [|n IH]; simpl; [reflexivity|].
  now rewrite IH.
Qed.

Lemma close_calls_repeat (n : nat) : close_calls (repeat EvFactory n) = O.
Proof. unfold close_calls. induction n as [|n IH]; simpl; auto. Qed.

Lemma close_calls_events (l : list idleConn) : close_calls (close_events l) = length l.
Proof.
  unfold close_calls, close_events. induction l as [|e l IH]; simpl; [reflexivity|].
  now rewrite IH.
Qed.

Lemma iface_eqb_refl c : iface_eqb c c = true.
Proof. destruct c as [h|]; simpl; [apply Nat.eqb_refl | reflexivity]. Qed.

(** ** Release *)

(** The range loop of [Release] empties the channel and calls the captured
    function once per entry, oldest first. *)
Lemma Release_range_drains (g : iface -> W -> error * W) (l : list idleConn) :
  forall s, buf (store s) = l ->
    Release_range (Some g) l s =
    Ok tt (mkState (pool s) (mkChan [] (cap (store s)) (closed (store s)))
             (close_all g l (world s)) (trace s ++ close_events l)).
Proof.
  induction l as [|e l IH]; intros s Hb.
  - open_state s. subst. simpl. unfold ret. now rewrite app_nil_r.
  - simpl. unfold bind at 1. unfold bind at 1. unfold call_close.
    destruct (g (conn e) (world (with_store _ s))) as [r w1] eqn:Hg.
    rewrite IH by reflexivity.
    open_state s. unfold with_store, with_world, log in *. simpl in *.
    rewrite Hg. simpl. now rewrite <- app_assoc.
Qed.

(** [Release] on an open pool. *)
Lemma Release_open s (g : iface -> W -> error * W) :
  mu (pool s) = false -> conns (pool s) <> None ->
  close (pool s) = Some g -> closed (store s) = false ->
  Release s =
  Ok tt (mkState (mkPool false None None None None (idleTimeout (pool s)))
           (mkChan [] (cap (store s)) true)
           (close_all g (buf (store s)) (world s))
           (trace s ++ close_events (buf (store s)))).
Proof.
  intros Hm Hc Hg Hd. open_state s. subst.
  destruct cs as [p|]; [|congruence].
  run. now rewrite Release_range_drains.
Qed.

(** [Release] on a pool that was already released changes nothing. *)
Lemma Release_again s : released_pool s -> Release s = Ok tt s.
Proof.
  intros [Hm Hc Hf Hcl Hp]. open_state s. subst. reflexivity.
Qed.

(** Whenever [Release] returns, the pool object holds no reference any more,
    and a store that was referenced is closed and empty. *)
Lemma Release_returns s s1 :
  Release s = Ok tt s1 ->
  released_pool s1 /\
  idleTimeout (pool s1) = idleTimeout (pool s) /\
  (conns (pool s) <> None -> store s1 = mkChan [] (cap (store s)) true).
Proof.
  intros HR. open_state s.
  destruct m; [discriminate|].
  destruct cs as [p|].
  - destruct cd eqn:Hcd; [revert HR; run; rewrite ?Hcd; discriminate|].
    destruct cl as [g|].
    + rewrite (Release_open _ g) in HR by (simpl; congruence).
      inversion HR; subst; clear HR. simpl. repeat split; reflexivity.
    + destruct b as [|e b].
      * inversion HR; subst; clear HR. simpl. repeat split; reflexivity.
      * discriminate.
  - inversion HR; subst; clear HR. simpl. repeat split; try reflexivity.
    intros Hn; congruence.
Qed.

(** A released pool is terminal: no operation changes it any more. *)
Lemma released_pool_Get s fuel :
  released_pool s -> Get fuel s = Ok (None, Some ErrClosed) s.
Proof. intros [Hm Hc Hf Hcl Hp]. open_state s. subst. reflexivity. Qed.

Lemma released_pool_Close s c :
  released_pool s -> c <> None -> Close c s = Ok None s.
Proof.
  intros [Hm Hc Hf Hcl Hp] Hn. open_state s. subst.
  destruct c as [h|]; [reflexivity | congruence].
Qed.

Lemma released_pool_Put s c :
  released_pool s -> c <> None -> Put c s = Ok None s.
Proof.
  intros [Hm Hc Hf Hcl Hp] Hn. open_state s. subst.
  destruct c as [h|]; [reflexivity | congruence].
Qed.

Lemma released_pool_Len s : released_pool s -> Len s = Ok 0 s.
Proof. intros [Hm Hc Hf Hcl Hp]. open_state s. subst. reflexivity. Qed.

(** No call of a method of the [Pool] interface changes a released pool. *)
Lemma released_pool_terminal s (ks : list call) :
  released_pool s -> do_calls ks s = Ok tt s.
Proof.
  intros Hrel. induction ks as [|k ks IH]; [reflexivity|].
  assert (Hk : do_call k s = Ok tt s).
  { destruct k as [fuel|c|c| |]; unfold do_call, bind.
    - now rewrite released_pool_Get.
    - destruct c as [h|]; [now rewrite released_pool_Put | reflexivity].
    - destruct c as [h|]; [now rewrite released_pool_Close | reflexivity].
    - now apply Release_again.
    - now rewrite released_pool_Len. }
  simpl. unfold bind. now rewrite Hk.
Qed.

(** C9: [Release] is idempotent.  On an open pool the first call sets the
    store reference and the three callbacks of the pool object to nil,
    closes the store and calls the captured destruction callback once on
    each idle entry, oldest first, whatever those calls return; [Release]
    itself returns nothing.  A second call returns at once and leaves the
    state, and so the trace of destruction calls, as the first call left
    it. *)
Theorem Release_idempotent s :
  open_pool s ->
  exists g s1,
    close (pool s) = Some g /\
    Release s = Ok tt s1 /\
    released_pool s1 /\
    store s1 = mkChan [] (cap (store s)) true /\
    world s1 = close_all g (buf (store s)) (world s) /\
    trace s1 = trace s ++ close_events (buf (store s)) /\
    close_calls (trace s1) = (close_calls (trace s) + length (buf (store s)))%nat /\
    Release s1 = Ok tt s1.
Proof.
  intros [Hm Hc Hf Hcl Hd Hcp Hl].
  destruct (close (pool s)) as [g|] eqn:Hg; [|congruence].
  exists g. eexists. split; [reflexivity|].
  split; [apply (Release_open s g); congruence|].
  assert (HR : released_pool
                 (mkState (mkPool false None None None None (idleTimeout (pool s)))
                    (mkChan [] (cap (store s)) true)
                    (close_all g (buf (store s)) (world s))
                    (trace s ++ close_events (buf (store s)))))
    by (constructor; reflexivity).
  repeat split; try reflexivity; try apply HR.
  simpl. now rewrite close_calls_app, close_calls_events.
Qed.

(** C6: once [Release] has returned, [Get] fails with [ErrClosed], returns
    no resource, and leaves the state (hence the trace: nothing is created)
    unchanged; the same holds after any further calls of [Get], [Put],
    [Close], [Release] and [Len], none of which changes the released pool.
    A [Get] that took its snapshot of the store reference before [Release]
    and runs its loop after it receives nil from the closed, empty store and
    fails with [ErrClosed] as well. *)
Theorem Get_after_Release s s1 (fuel : nat) :
  Release s = Ok tt s1 ->
  Get fuel s1 = Ok (None, Some ErrClosed) s1 /\
  (forall ks, bind (do_calls ks) (fun _ => Get fuel) s1 = Ok (None, Some ErrClosed) s1) /\
  (forall p, conns (pool s) = Some p ->
     Get_loop (S fuel) p s1 = Ok (None, Some ErrClosed) s1).
Proof.
  intros HR. destruct (Release_returns _ _ HR) as (Hrel & _ & Hst).
  split; [now apply released_pool_Get|].
  split.
  { intros ks. unfold bind. rewrite released_pool_terminal by assumption.
    now apply released_pool_Get. }
  intros p Hp. assert (Hs : store s1 = mkChan [] (cap (store s)) true)
    by (apply Hst; congruence).
  open_state s1. subst. inversion Hs; subst. reflexivity.
Qed.

(** What the code does with a resource that comes back late: once [Release]
    has returned, [Put] and [Close] of a non-nil resource return nil and
    leave the state unchanged.  [Put] does call [Close], as it does when the
    store is full, but [Release] has set the destruction callback of the
    pool to nil and [Close] returns nil when that callback is nil: the
    callback is not called, the trace gains no event, and the resource is
    never closed. *)
Theorem Put_Close_after_Release s s1 c :
  Release s = Ok tt s1 -> c <> None ->
  Put c s1 = Ok None s1 /\ Close c s1 = Ok None s1.
Proof.
  intros HR Hn. destruct (Release_returns _ _ HR) as (Hrel & _ & _).
  split; [now apply released_pool_Put | now apply released_pool_Close].
Qed.

(** C10: [Ping] of a non-nil resource calls the validation callback of the
    pool without testing it for nil.  With no callback configured the call
    panics, and so it does on every pool after [Release]; with a callback
    configured [Ping] returns what the callback returns.  [Close] is
    different: with a nil destruction callback it returns nil. *)
Theorem Ping_needs_callback s c :
  c <> None ->
  (ping (pool s) = None -> Ping c s = Panic) /\
  (forall s0, Release s0 = Ok tt s -> Ping c s = Panic) /\
  (forall g, ping (pool s) = Some g ->
     Ping c s = Ok (fst (g c (world s)))
                  (mkState (pool s) (store s) (snd (g c (world s))) (trace s ++ [EvPing c]))) /\
  (mu (pool s) = false -> close (pool s) = None -> Close c s = Ok None s).
Proof.
  intros Hn. destruct c as [h|]; [clear Hn | congruence].
  assert (Hnil : ping (pool s) = None -> Ping (Some h) s = Panic).
  { intros Hp. open_state s. subst. reflexivity. }
  split; [exact Hnil|]. split; [|split].
  - intros s0 HR. apply Hnil. now destruct (Release_returns _ _ HR) as ([] & _ & _).
  - intros g Hp. open_state s. subst. run. now destruct (g (Some h) w).
  - intros Hm Hcl. open_state s. subst. reflexivity.
Qed.

(** ** Construction *)

Lemma fill_length (f : W -> (iface * error) * W) (n : nat) :
  forall w l w', fill f n w = Some (l, w') -> length l = n.
Proof.
  induction n as [|n IH]; simpl; intros w l w' Hf.
  - now inversion Hf.
  - destruct (f w) as [[c [err|]] w1]; [discriminate|].
    destruct (fill f n w1) as [[l1 w2]|] eqn:Hfill; [|discriminate].
    inversion Hf; subst. simpl. f_equal. eauto.
Qed.

(** A pre-warm loop that returns without error made [n] successful calls of
    the creation callback and appended their results to the store. *)
Lemma prewarm_success (g : W -> (iface * error) * W) (n : nat) :
  forall s r s',
    factory (pool s) = Some g ->
    prewarm n s = Ok (r, None) s' ->
    r = Some pool_addr /\ pool s' = pool s /\
    cap (store s') = cap (store s) /\ closed (store s') = closed (store s) /\
    trace s' = trace s ++ repeat EvFactory n /\
    exists l, fill g n (world s) = Some (l, world s') /\
              buf (store s') = buf (store s) ++ l.
Proof.
  induction n as [|n IH]; intros s r s' Hg Hrun.
  - inversion Hrun; subst. rewrite !app_nil_r. simpl.
    repeat split. exists []. now rewrite app_nil_r.
  - open_state s. subst. revert Hrun.
    unfold bind, field, call_factory, chan_send, time_Now, chan_full, block; simpl.
    destruct (g w) as [[c [err|]] w1] eqn:Hgw; simpl.
    + match goal with |- context [Release ?x] => destruct (Release x) end;
        intros Hrun; discriminate.
    + destruct cs as [p|]; simpl; [|discriminate].
      destruct cd; [discriminate|].
      destruct (cp <=? Z.of_nat (length b)); [discriminate|]. simpl.
      intros Hrun. apply IH in Hrun; [|reflexivity]. simpl in Hrun.
      destruct Hrun as (Hr & Hp & Hcap & Hcl & Htr & l & Hfill & Hbuf).
      repeat split; auto.
      * rewrite Htr, <- app_assoc. reflexivity.
      * exists (mkIdle c (clock w1) :: l). rewrite Hfill, Hbuf, <- app_assoc.
        split; reflexivity.
Qed.

(** Conversely the pre-warm loop returns the pool when the [n] calls succeed
    and the store has room for their results. *)
Lemma prewarm_fills (g : W -> (iface * error) * W) (n : nat) :
  forall s l w',
    factory (pool s) = Some g -> conns (pool s) = Some store_addr ->
    closed (store s) = false ->
    Z.of_nat (length (buf (store s))) + Z.of_nat n <= cap (store s) ->
    fill g n (world s) = Some (l, w') ->
    prewarm n s =
    Ok (Some pool_addr, None)
       (mkState (pool s) (mkChan (buf (store s) ++ l) (cap (store s)) false) w'
          (trace s ++ repeat EvFactory n)).
Proof.
  induction n as [|n IH]; intros s l w' Hg Hc Hd Hroom Hfill.
  - simpl in Hfill. inversion Hfill; subst. open_state s. subst.
    unfold ret. now rewrite !app_nil_r.
  - open_state s. subst.
    destruct (g w) as [[c [err|]] w1] eqn:Hgw; [discriminate|].
    destruct (fill g n w1) as [[l1 w2]|] eqn:Hfill1; [|discriminate].
    inversion Hfill; subst. run. rewrite Hgw. simpl.
    destruct (Z.leb_spec cp (Z.of_nat (length b))); [lia|]. simpl.
    erewrite IH; simpl; eauto.
    + now rewrite <- !app_assoc.
    + rewrite length_app. simpl. lia.
Qed.

(** What a successful [NewChannelPool] leaves behind. *)
Lemma NewChannelPool_success (cfg : Config.t W) s r s' :
  NewChannelPool cfg s = Ok (r, None) s' ->
  r = Some pool_addr /\
  0 <= Config.InitialCap cfg <= Config.MaxCap cfg /\ 0 < Config.MaxCap cfg /\
  exists f g l,
    Config.Factory cfg = Some f /\ Config.Close cfg = Some g /\
    pool s' = mkPool false (Some store_addr) (Some f) (Some g) (Config.Ping cfg)
                (Config.IdleTimeout cfg) /\
    store s' = mkChan l (Config.MaxCap cfg) false /\
    fill f (Z.to_nat (Config.InitialCap cfg)) (world s) = Some (l, world s') /\
    trace s' = trace s ++ repeat EvFactory (Z.to_nat (Config.InitialCap cfg)).
Proof.
  unfold NewChannelPool.
  destruct ((Config.InitialCap cfg <? 0) || (Config.MaxCap cfg <=? 0)
            || (Config.MaxCap cfg <? Config.InitialCap cfg)) eqn:Hcap;
    [discriminate|].
  apply orb_false_elim in Hcap. destruct Hcap as [Hcap H3].
  apply orb_false_elim in Hcap. destruct Hcap as [H1 H2].
  apply Z.ltb_ge in H1, H3. apply Z.leb_gt in H2.
  destruct (Config.Factory cfg) as [f|] eqn:Hf; [|discriminate].
  destruct (Config.Close cfg) as [g|] eqn:Hg; [|discriminate].
  unfold bind at 1. unfold make.
  destruct ((Config.MaxCap cfg <? 0) || negb (chan_fits (Config.MaxCap cfg)));
    [discriminate|].
  unfold ret at 1. cbv beta iota.
  unfold bind at 1. unfold bind at 1.
  intros Hrun.
  assert (Hpre : exists s0,
    prewarm (Z.to_nat (Config.InitialCap cfg)) s0 = Ok (r, None) s' /\
    s0 = mkState (mkPool false (Some store_addr) (Some f) (Some g) (Config.Ping cfg)
                    (Config.IdleTimeout cfg))
           (mkChan [] (Config.MaxCap cfg) false) (world s) (trace s)).
  { destruct (Config.Ping cfg) as [pg|]; eexists; split; try exact Hrun; reflexivity. }
  destruct Hpre as (s0 & Hpre & ->).
  apply (prewarm_success f) in Hpre; [|reflexivity]. simpl in Hpre.
  destruct Hpre as (Hr & Hp & Hc & Hd & Htr & l & Hfill & Hbuf).
  split; [assumption|]. split; [lia|]. split; [lia|].
  exists f, g, l. repeat split; auto.
  destruct (store s') as [b cp cd]. simpl in *. congruence.
Qed.

(** [NewChannelPool] returns a pool whenever the configuration is accepted
    and the creation callback succeeds [InitialCap] times. *)
Lemma NewChannelPool_returns (cfg : Config.t W) s f g l w' :
  0 <= Config.InitialCap cfg <= Config.MaxCap cfg -> 0 < Config.MaxCap cfg ->
  chan_fits (Config.MaxCap cfg) = true ->
  Config.Factory cfg = Some f -> Config.Close cfg = Some g ->
  fill f (Z.to_nat (Config.InitialCap cfg)) (world s) = Some (l, w') ->
  NewChannelPool cfg s =
  Ok (Some pool_addr, None)
     (mkState (mkPool false (Some store_addr) (Some f) (Some g) (Config.Ping cfg)
                 (Config.IdleTimeout cfg))
        (mkChan l (Config.MaxCap cfg) false) w'
        (trace s ++ repeat EvFactory (Z.to_nat (Config.InitialCap cfg)))).
Proof.
  intros Hi Hmax Hfit Hf Hg Hfill. unfold NewChannelPool.
  destruct (Z.ltb_spec (Config.InitialCap cfg) 0); [lia|].
  destruct (Z.leb_spec (Config.MaxCap cfg) 0); [lia|].
  destruct (Z.ltb_spec (Config.MaxCap cfg) (Config.InitialCap cfg)); [lia|].
  simpl. rewrite Hf, Hg. unfold bind at 1. unfold make. rewrite Hfit.
  destruct (Z.ltb_spec (Config.MaxCap cfg) 0); [lia|].
  simpl. unfold ret at 1. unfold bind at 1. unfold bind at 1.
  destruct (Config.Ping cfg) as [pg|]; simpl;
    erewrite (prewarm_fills f); simpl; eauto; simpl; lia.
Qed.

(** A configuration that passes the checks but asks for a channel the
    runtime cannot allocate makes [NewChannelPool] panic in [make], before
    any callback is called. *)
Lemma NewChannelPool_make_panics (cfg : Config.t W) s f g :
  0 <= Config.InitialCap cfg <= Config.MaxCap cfg -> 0 < Config.MaxCap cfg ->
  chan_fits (Config.MaxCap cfg) = false ->
  Config.Factory cfg = Some f -> Config.Close cfg = Some g ->
  NewChannelPool cfg s = Panic.
Proof.
  intros Hi Hmax Hfit Hf Hg. unfold NewChannelPool.
  destruct (Z.ltb_spec (Config.InitialCap cfg) 0); [lia|].
  destruct (Z.leb_spec (Config.MaxCap cfg) 0); [lia|].
  destruct (Z.ltb_spec (Config.MaxCap cfg) (Config.InitialCap cfg)); [lia|].
  simpl. rewrite Hf, Hg. unfold bind at 1. unfold make. rewrite Hfit.
  now rewrite orb_true_r.
Qed.

(** C4: a [NewChannelPool] that returns without error returns the pool,
    has called the creation callback exactly [InitialCap] times and nothing
    else, holds in its store the resources those calls produced, in order,
    and reports [InitialCap] as its [Len]. *)
Theorem NewChannelPool_prewarms (cfg : Config.t W) s r s' :
  NewChannelPool cfg s = Ok (r, None) s' ->
  r = Some pool_addr /\
  exists f l,
    Config.Factory cfg = Some f /\
    fill f (Z.to_nat (Config.InitialCap cfg)) (world s) = Some (l, world s') /\
    buf (store s') = l /\
    trace s' = trace s ++ repeat EvFactory (Z.to_nat (Config.InitialCap cfg)) /\
    Z.of_nat (factory_calls (trace s')) =
      Z.of_nat (factory_calls (trace s)) + Config.InitialCap cfg /\
    close_calls (trace s') = close_calls (trace s) /\
    Len s' = Ok (Config.InitialCap cfg) s'.
Proof.
  intros Hrun. apply NewChannelPool_success in Hrun.
  destruct Hrun as (Hr & Hi & Hmax & f & g & l & Hf & Hg & Hp & Hst & Hfill & Htr).
  split; [assumption|]. exists f, l.
  pose proof (fill_length _ _ _ _ _ Hfill) as Hlen.
  repeat split; auto.
  - now rewrite Hst.
  - rewrite Htr, factory_calls_app, factory_calls_repeat. lia.
  - rewrite Htr, close_calls_app, close_calls_repeat. lia.
  - open_state s'. inversion Hp; inversion Hst; subst. run.
    f_equal. rewrite Hlen. lia.
Qed.


(** C5: [NewChannelPool] rejects a configuration with a negative initial
    count, a maximum that is not positive, an initial count above the
    maximum, no creation callback or no destruction callback.  It returns a
    nil pool and one of the three configuration errors, and the state is the
    one it was called in: no callback was called (the trace is unchanged)
    and no pool object or store was set up. *)
Theorem NewChannelPool_rejects_config (cfg : Config.t W) s :
  Config.InitialCap cfg < 0 \/ Config.MaxCap cfg <= 0 \/
  Config.MaxCap cfg < Config.InitialCap cfg \/
  Config.Factory cfg = None \/ Config.Close cfg = None ->
  exists err, is_ConfigError err = true /\ NewChannelPool cfg s = Ok (None, Some err) s.
Proof.
  intros Hbad. unfold NewChannelPool.
  destruct ((Config.InitialCap cfg <? 0) || (Config.MaxCap cfg <=? 0)
            || (Config.MaxCap cfg <? Config.InitialCap cfg)) eqn:Hcap.
  - exists ErrCapacity. split; reflexivity.
  - destruct (Config.Factory cfg) as [f|] eqn:Hf.
    + destruct (Config.Close cfg) as [g|] eqn:Hg.
      * exfalso. apply orb_false_elim in Hcap. destruct Hcap as [Hcap H3].
        apply orb_false_elim in Hcap. destruct Hcap as [H1 H2].
        apply Z.ltb_ge in H1, H3. apply Z.leb_gt in H2.
        destruct Hbad as [?|[?|[?|[?|?]]]]; try lia; discriminate.
      * exists ErrCloseFunc. split; reflexivity.
    + exists ErrFactoryFunc. split; reflexivity.
Qed.

(** ** Put *)

(** [Put] on an open pool whose store has room appends the resource, stamped
    with the current time, and calls nothing. *)
Lemma Put_stores s c :
  open_pool s -> c <> None ->
  Z.of_nat (length (buf (store s))) < cap (store s) ->
  Put c s =
  Ok None (mkState (pool s)
             (mkChan (buf (store s) ++ [mkIdle c (clock (world s))]) (cap (store s)) false)
             (world s) (trace s)).
Proof.
  intros [Hm Hc Hf Hcl Hd Hcp Hl] Hn Hroom.
  destruct c as [h|]; [clear Hn | congruence].
  open_state s. subst. run. unfold chan_full. simpl.
  destruct (Z.leb_spec cp (Z.of_nat (length b))); [lia | reflexivity].
Qed.

(** C8: [Put] of a non-nil resource on an open pool whose store holds as
    many entries as its capacity does not add to the store.  It calls the
    destruction callback once on the resource and returns what that call
    returns; [Len] is the capacity before and after. *)
Theorem Put_full_store s c (g : iface -> W -> error * W) :
  open_pool s -> c <> None ->
  close (pool s) = Some g ->
  Z.of_nat (length (buf (store s))) = cap (store s) ->
  exists s',
    Put c s = Ok (fst (g c (world s))) s' /\
    s' = mkState (pool s) (store s) (snd (g c (world s))) (trace s ++ [EvClose c]) /\
    close_calls_of c (trace s') = S (close_calls_of c (trace s)) /\
    close_calls (trace s') = S (close_calls (trace s)) /\
    Len s = Ok (cap (store s)) s /\
    Len s' = Ok (cap (store s)) s'.
Proof.
  intros [Hm Hc Hf Hcl Hd Hcp Hl] Hn Hg Hfull.
  destruct c as [h|]; [clear Hn | congruence].
  eexists. split; [|split; [reflexivity|]].
  - open_state s. subst. run. unfold chan_full. simpl.
    destruct (Z.leb_spec (Z.of_nat (length b)) (Z.of_nat (length b))); [|lia].
    simpl. now destruct (g (Some h) w).
  - simpl. rewrite close_calls_of_app, close_calls_app.
    unfold close_calls_of, close_calls. simpl. rewrite Nat.eqb_refl. simpl.
    rewrite !Nat.add_1_r.
    open_state s. subst. repeat split; reflexivity.
Qed.

(** ** Get *)


(** Without idle timeout and validation, the [Get] after a [Put] returns the
    oldest entry of the store. *)
Lemma Put_then_Get_fifo s c (fuel : nat) :
  open_pool s -> c <> None ->
  Z.of_nat (length (buf (store s))) < cap (store s) ->
  idleTimeout (pool s) <= 0 -> ping (pool s) = None ->
  exists s1 s2,
    Put c s = Ok None s1 /\
    Get (S fuel) s1 = Ok (conn (hd (mkIdle c (clock (world s))) (buf (store s))), None) s2.
Proof.
  intros Ho Hn Hroom Ht Hp.
  pose proof (Put_stores s c Ho Hn Hroom) as HP.
  destruct Ho as [Hm Hc Hf Hcl Hd Hcp Hl].
  open_state s. subst.
  destruct b as [|e b]; (eexists; eexists; split; [exact HP|]); run;
    (destruct (Z.ltb_spec 0 it); [lia | reflexivity]).
Qed.


(** With the mutex free, [Get] runs its loop on the store when the pool
    still references it. *)
Lemma Get_open s (fuel : nat) :
  mu (pool s) = false -> conns (pool s) = Some store_addr ->
  Get fuel s = Get_loop fuel store_addr s.
Proof. intros Hm Hc. open_state s. subst. reflexivity. Qed.

(** The loop of [Get] on an empty open store: one call of the creation
    callback, whose outcome is returned. *)
Lemma Get_loop_creates s (f : W -> (iface * error) * W) (fuel : nat) :
  mu (pool s) = false -> factory (pool s) = Some f ->
  buf (store s) = [] -> closed (store s) = false ->
  Get_loop (S fuel) store_addr s =
  Ok (created (f (world s)))
     (mkState (pool s) (store s) (snd (f (world s))) (trace s ++ [EvFactory])).
Proof.
  intros Hm Hf Hb Hd. open_state s. subst. run. unfold created.
  destruct (f w) as [[c [err|]] w1]; reflexivity.
Qed.

(** C7: with a positive idle timeout, when [Get] pops an entry whose
    timestamp plus the timeout is before the current time, it calls the
    destruction callback on the resource of that entry, drops what the call
    returns, and goes on with the rest of the store.  If the store is then
    empty, [Get] calls the creation callback once and returns its outcome:
    one destruction call and one creation call are added to the trace. *)
Theorem Get_evicts_expired s e rest (g : iface -> W -> error * W) (fuel : nat) :
  open_pool s ->
  close (pool s) = Some g ->
  buf (store s) = e :: rest ->
  conn e <> None ->
  0 < idleTimeout (pool s) ->
  t e + idleTimeout (pool s) < clock (world s) ->
  exists s1,
    s1 = mkState (pool s) (mkChan rest (cap (store s)) false)
           (snd (g (conn e) (world s))) (trace s ++ [EvClose (conn e)]) /\
    Get (S fuel) s = Get fuel s1 /\
    (rest = [] ->
     forall f, factory (pool s) = Some f ->
     exists s2,
       s2 = mkState (pool s) (mkChan [] (cap (store s)) false)
              (snd (f (world s1))) (trace s ++ [EvClose (conn e); EvFactory]) /\
       Get (S (S fuel)) s = Ok (created (f (world s1))) s2 /\
       factory_calls (trace s2) = S (factory_calls (trace s)) /\
       close_calls_of (conn e) (trace s2) = S (close_calls_of (conn e) (trace s))).
Proof.
  intros [Hm Hc Hf Hcl Hd Hcp Hl] Hg Hb Hn Ht Hexp.
  destruct e as [[h|] te]; simpl in *; [clear Hn | congruence].
  eexists. split; [reflexivity|].
  assert (Hstep : forall k,
    Get (S k) s =
    Get k (mkState (pool s) (mkChan rest (cap (store s)) false)
             (snd (g (Some h) (world s))) (trace s ++ [EvClose (Some h)]))).
  { intros k. open_state s. subst. run.
    destruct (Z.ltb_spec 0 it); [|lia]. simpl.
    destruct (Z.ltb_spec (te + it) (clock w)); [|lia]. simpl.
    destruct (g (Some h) w) as [r w1]. reflexivity. }
  split; [apply Hstep|].
  intros -> f Hfac. eexists. split; [reflexivity|].
  split.
  - rewrite Hstep, Get_open by (simpl; assumption).
    rewrite (Get_loop_creates _ f) by (simpl; auto).
    simpl. now rewrite <- app_assoc.
  - simpl. rewrite factory_calls_app, close_calls_of_app.
    unfold factory_calls, close_calls_of. simpl. rewrite Nat.eqb_refl. simpl. lia.
Qed.

(** With idle timeout disabled and a validation callback that rejects
    every resource, the loop of [Get] drops every idle entry without calling
    the destruction callback, then calls the creation callback once and
    returns its outcome. *)
Lemma Get_loop_rejects_all (g : iface -> W -> error * W)
  (f : W -> (iface * error) * W) (l : list idleConn) :
  (forall c w, fst (g c w) <> None) ->
  forall s (fuel : nat),
    mu (pool s) = false -> closed (store s) = false ->
    ping (pool s) = Some g -> factory (pool s) = Some f ->
    idleTimeout (pool s) <= 0 ->
    buf (store s) = l -> (length l < fuel)%nat ->
    exists w1 s',
      Get_loop fuel store_addr s = Ok (created (f w1)) s' /\
      pool s' = pool s /\ buf (store s') = [] /\
      close_calls (trace s') = close_calls (trace s) /\
      factory_calls (trace s') = S (factory_calls (trace s)).
Proof.
  intros Hrej. induction l as [|e l IH]; intros s fuel Hm Hd Hp Hf Ht Hb Hfuel;
    (destruct fuel as [|fuel]; [simpl in Hfuel; lia|]).
  - rewrite (Get_loop_creates s f) by auto.
    eexists. eexists. split; [reflexivity|]. simpl.
    rewrite factory_calls_app, close_calls_app. unfold factory_calls, close_calls. simpl.
    repeat split; auto; lia.
  - assert (IH' : forall w' tr',
      close_calls tr' = close_calls (trace s) ->
      factory_calls tr' = factory_calls (trace s) ->
      exists w1 s',
        Get_loop fuel store_addr
          (mkState (pool s) (mkChan l (cap (store s)) false) w' tr') =
        Ok (created (f w1)) s' /\
        pool s' = pool s /\ buf (store s') = [] /\
        close_calls (trace s') = close_calls (trace s) /\
        factory_calls (trace s') = S (factory_calls (trace s))).
    { intros w' tr' Hc1 Hc2.
      destruct (IH (mkState (pool s) (mkChan l (cap (store s)) false) w' tr') fuel)
        as (w1 & s' & Hrun & Hpool & Hbuf & Hcc & Hfc); simpl in *; auto; try lia.
      exists w1, s'. rewrite Hcc, Hfc, Hc1, Hc2. auto. }
    destruct e as [ce te]. open_state s. subst. run.
    destruct (Z.ltb_spec 0 it); [lia|]. simpl.
    destruct ce as [h|]; simpl.
    + specialize (Hrej (Some h) w). destruct (g (Some h) w) as [[err|] w1]; simpl in *;
        [|congruence].
      apply IH'; rewrite <- app_assoc; simpl;
        rewrite ?close_calls_app, ?factory_calls_app;
        unfold close_calls, factory_calls; simpl; lia.
    + apply IH'; rewrite ?close_calls_app, ?factory_calls_app;
        unfold close_calls, factory_calls; simpl; lia.
Qed.

(** ** The open pool is an invariant *)

Lemma open_pool_frame s s' :
  pool s' = pool s -> store s' = store s -> open_pool s -> open_pool s'.
Proof.
  intros Hp Hs [Hm Hc Hf Hcl Hd Hcp Hl]. constructor; rewrite ?Hp, ?Hs; assumption.
Qed.

Lemma NewChannelPool_open (cfg : Config.t W) s r s' :
  NewChannelPool cfg s = Ok (r, None) s' -> open_pool s'.
Proof.
  intros Hrun. apply NewChannelPool_success in Hrun.
  destruct Hrun as (Hr & Hi & Hmax & f & g & l & Hf & Hg & Hp & Hst & Hfill & Htr).
  apply fill_length in Hfill.
  constructor; rewrite ?Hp, ?Hst; simpl; try congruence; lia.
Qed.

(** [Close] returns whenever the mutex is free, and touches neither the pool
    object nor the store. *)
Lemma Close_returns s c :
  mu (pool s) = false ->
  exists r s', Close c s = Ok r s' /\ pool s' = pool s /\ store s' = store s.
Proof.
  intros Hm. open_state s. subst. destruct c as [h|].
  - destruct cl as [g|]; run.
    + destruct (g (Some h) w) as [r w1]. simpl. eauto.
    + eauto.
  - simpl. unfold ret. eauto.
Qed.

Lemma Put_open s c :
  open_pool s -> exists r s', Put c s = Ok r s' /\ open_pool s'.
Proof.
  intros Ho. destruct c as [h|].
  - destruct (Z.ltb_spec (Z.of_nat (length (buf (store s)))) (cap (store s))) as [Hroom|Hfull].
    + rewrite Put_stores by (auto; congruence). eexists. eexists. split; [reflexivity|].
      destruct Ho. constructor; simpl; auto. rewrite length_app. simpl. lia.
    + destruct (Close_returns s (Some h)) as (r & s' & HC & Hp & Hs); [apply Ho|].
      exists r, s'. split; [|now apply (open_pool_frame s)].
      rewrite <- HC. destruct Ho as [Hm Hc Hf Hcl Hd Hcp Hl].
      open_state s. subst. run.
      destruct (Z.leb_spec cp (Z.of_nat (length b))); [|lia]. reflexivity.
  - exists (Some ErrNilConn), s. split; [reflexivity | assumption].
Qed.

Lemma Len_open s :
  open_pool s -> Len s = Ok (Z.of_nat (length (buf (store s)))) s.
Proof. intros [Hm Hc Hf Hcl Hd Hcp Hl]. open_state s. subst. reflexivity. Qed.

(** The loop of [Get] terminates on an open pool: one iteration per idle
    entry and one more are enough.  It leaves the pool open. *)
Lemma Get_loop_total (l : list idleConn) :
  forall s (fuel : nat),
    open_pool s -> buf (store s) = l -> (length l < fuel)%nat ->
    exists r s', Get_loop fuel store_addr s = Ok r s' /\ open_pool s' /\
                 (length (buf (store s')) <= length l)%nat.
Proof.
  induction l as [|e l IH]; intros s fuel Ho Hb Hfuel;
    (destruct fuel as [|fuel]; [simpl in Hfuel; lia|]).
  - destruct (factory (pool s)) as [f|] eqn:Hf; [|now destruct Ho].
    rewrite (Get_loop_creates s f) by (auto; apply Ho).
    eexists. eexists. split; [reflexivity|]. split.
    + now apply (open_pool_frame s).
    + simpl. rewrite Hb. simpl. lia.
  - assert (IH' : forall w' tr',
      exists r s',
        Get_loop fuel store_addr
          (mkState (pool s) (mkChan l (cap (store s)) false) w' tr') = Ok r s' /\
        open_pool s' /\ (length (buf (store s')) <= length (e :: l))%nat).
    { intros w' tr'.
      destruct (IH (mkState (pool s) (mkChan l (cap (store s)) false) w' tr') fuel)
        as (r & s' & Hrun & Ho' & Hlen); [| reflexivity | simpl in *; lia |].
      - destruct Ho. constructor; simpl; auto. rewrite Hb in *. simpl in *. lia.
      - exists r, s'. simpl. auto. }
    assert (Hpop : open_pool (mkState (pool s) (mkChan l (cap (store s)) false)
                                (world s) (trace s))).
    { destruct Ho. constructor; simpl; auto. rewrite Hb in *. simpl in *. lia. }
    destruct Ho as [Hm Hc Hf Hcl Hd Hcp Hl]. destruct e as [ce te].
    open_state s. subst.
    assert (Hret : forall w' tr',
      exists r s',
        @Ok W (iface * error) (ce, None)
          (mkState (mkPool false (Some store_addr) f cl pg it) (mkChan l cp false) w' tr')
        = Ok r s' /\ open_pool s' /\ (length (buf (store s')) <= length (mkIdle ce te :: l))%nat).
    { intros w' tr'. eexists. eexists. split; [reflexivity|]. split.
      - revert Hpop. now apply open_pool_frame.
      - simpl. lia. }
    run.
    destruct (0 <? it); simpl;
      [destruct (te + it <? clock w); simpl|];
      try (destruct ce as [h|]; simpl;
           [destruct cl as [g|]; [|congruence]; simpl;
            destruct (g (Some h) w) as [r1 w1]; simpl; apply IH'
           | apply IH']);
      (destruct pg as [g|]; simpl; [|apply Hret]);
      (destruct ce as [h|]; simpl; [|apply IH']);
      (destruct (g (Some h) w) as [[err|] w1]; simpl; [apply IH' | apply Hret]).
Qed.

(** [Get] returns on an open pool, and leaves it open. *)
Lemma Get_total s (fuel : nat) :
  open_pool s -> (length (buf (store s)) < fuel)%nat ->
  exists r s', Get fuel s = Ok r s' /\ open_pool s'.
Proof.
  intros Ho Hfuel. rewrite Get_open by apply Ho.
  destruct (Get_loop_total _ s fuel Ho eq_refl Hfuel) as (r & s' & Hrun & Ho' & _).
  eauto.
Qed.

End Properties.

(** * Runs on the concrete world *)

Ltac demo_open :=
  constructor; vm_compute; try reflexivity; try discriminate; try (intro; discriminate).

Ltac by_run := vm_compute; reflexivity.

(** How [Demo.warm] and [Demo.shut] come about. *)
Lemma warm_built :
  NewChannelPool (Demo.config 2 3 None 0) (Demo.boot 100) = Ok (Some pool_addr, None) Demo.warm.
Proof. vm_compute. reflexivity. Defined.

Lemma warm_released : Release Demo.warm = Ok tt Demo.shut.
Proof. vm_compute. reflexivity. Defined.

(** The five rejected configurations of [NewChannelPool], one by one. *)
Example NewChannelPool_negative_initial :
  NewChannelPool (Demo.config (-1) 3 None 0) (Demo.boot 100)
  = Ok (None, Some ErrCapacity) (Demo.boot 100).
Proof. vm_compute. reflexivity. Qed.

Example NewChannelPool_zero_max :
  NewChannelPool (Demo.config 0 0 None 0) (Demo.boot 100)
  = Ok (None, Some ErrCapacity) (Demo.boot 100).
Proof. vm_compute. reflexivity. Qed.

Example NewChannelPool_initial_above_max :
  NewChannelPool (Demo.config 4 3 None 0) (Demo.boot 100)
  = Ok (None, Some ErrCapacity) (Demo.boot 100).
Proof. vm_compute. reflexivity. Qed.

Example NewChannelPool_no_factory :
  NewChannelPool (Config.mk 1 3 None (Some Demo.close_conn) None 0) (Demo.boot 100)
  = Ok (None, Some ErrFactoryFunc) (Demo.boot 100).
Proof. vm_compute. reflexivity. Qed.

Example NewChannelPool_no_close :
  NewChannelPool (Config.mk 1 3 (Some Demo.new_conn) None None 0) (Demo.boot 100)
  = Ok (None, Some ErrCloseFunc) (Demo.boot 100).
Proof. vm_compute. reflexivity. Qed.

(** A creation callback that fails during pre-warm: the pool is released and
    the wrapped error is returned. *)
Example NewChannelPool_factory_fails :
  exists s,
    NewChannelPool (Config.mk 2 3 (Some Demo.broken_factory) (Some Demo.close_conn) None 0)
      (Demo.boot 100)
    = Ok (None, Some (ErrFill (ErrUser "dial failed"))) s /\
    released_pool s /\ trace s = [EvFactory].
Proof.
  exists (Demo.after
            (NewChannelPool
               (Config.mk 2 3 (Some Demo.broken_factory) (Some Demo.close_conn) None 0)
               (Demo.boot 100))).
  split; [by_run|]. split; [constructor|]; by_run.
Qed.

(** C1, the code at the failing input: on the released pool [Demo.shut],
    [Put] and [Close] of resource 7 return nil with the state unchanged.
    The destruction callback is not called on resource 7: the number of
    destruction calls on it does not grow by one, as it does when [Put]
    finds the store full, it stays 0. *)
Lemma Put_after_Release_destroys_nothing :
  Release Demo.warm = Ok tt Demo.shut /\
  Put (Some 7%nat) Demo.shut = Ok None Demo.shut /\
  Close (Some 7%nat) Demo.shut = Ok None Demo.shut /\
  close_calls_of (Some 7%nat) (trace Demo.shut) = O /\
  ~ (exists r s2,
       Put (Some 7%nat) Demo.shut = Ok r s2 /\
       close_calls_of (Some 7%nat) (trace s2)
       = S (close_calls_of (Some 7%nat) (trace Demo.shut))) /\
  ~ (exists r s2,
       Close (Some 7%nat) Demo.shut = Ok r s2 /\
       close_calls_of (Some 7%nat) (trace s2)
       = S (close_calls_of (Some 7%nat) (trace Demo.shut))).
Proof.
  assert (HP : Put (Some 7%nat) Demo.shut = Ok None Demo.shut) by by_run.
  assert (HC : Close (Some 7%nat) Demo.shut = Ok None Demo.shut) by by_run.
  split; [exact warm_released|]. split; [exact HP|]. split; [exact HC|].
  split; [by_run|]. split.
  - intros (r & s2 & Hrun & Hcount). rewrite HP in Hrun.
    injection Hrun as _ <-. vm_compute in Hcount. discriminate.
  - intros (r & s2 & Hrun & Hcount). rewrite HC in Hrun.
    injection Hrun as _ <-. vm_compute in Hcount. discriminate.
Qed.

(** On [Demo.warm]: after [Release], [Put] and [Close] of resource 7. *)
Lemma Put_Close_after_Release_witness :
  Release Demo.warm = Ok tt Demo.shut /\ Some 7%nat <> None /\
  Put (Some 7%nat) Demo.shut = Ok None Demo.shut /\
  Close (Some 7%nat) Demo.shut = Ok None Demo.shut.
Proof.
  split; [exact warm_released|]. split; [discriminate|].
  apply (Put_Close_after_Release Demo.warm Demo.shut (Some 7%nat) warm_released).
  discriminate.
Defined.

(** C2, the code at the failing input: [Demo.guarded] holds resource 0 and
    its validation callback rejects it.  [Get] validates resource 0, prints
    the error, creates resource 1 and returns it; the destruction callback is
    never called, on resource 0 or any other, and resource 0 is in no store
    any more. *)
Theorem Get_drops_rejected_without_close :
  exists s',
    Get 2 Demo.guarded = Ok (Some 1%nat, None) s' /\
    trace Demo.guarded = [EvFactory] /\
    trace s' = [EvFactory; EvPing (Some 0%nat); EvPrintln (ErrUser "down"); EvFactory] /\
    close_calls_of (Some 0%nat) (trace s') = O /\
    close_calls (trace s') = O /\
    buf (store Demo.guarded) = [mkIdle (Some 0%nat) 100] /\
    buf (store s') = [].
Proof.
  exists (Demo.after (Get 2 Demo.guarded)).
  split; [by_run|]. split; [by_run|]. split; [by_run|]. split; [by_run|].
  split; [by_run|]. split; by_run.
Qed.



(** C4 on the configuration of [Demo.warm]: two creation calls, [Len] is 2. *)
Lemma NewChannelPool_prewarms_witness :
  NewChannelPool (Demo.config 2 3 None 0) (Demo.boot 100)
  = Ok (Some pool_addr, None) Demo.warm /\
  Len Demo.warm = Ok 2 Demo.warm /\
  factory_calls (trace Demo.warm) = 2%nat /\
  buf (store Demo.warm) = [mkIdle (Some 0%nat) 100; mkIdle (Some 1%nat) 100].
Proof.
  split; [exact warm_built|].
  destruct (NewChannelPool_prewarms (Demo.config 2 3 None 0) (Demo.boot 100)
              (Some pool_addr) Demo.warm warm_built)
    as (_ & f & l & _ & _ & _ & _ & _ & _ & HLen).
  split; [exact HLen|]. split; by_run.
Defined.

(** C5 on a configuration with initial count 4 above maximum 3. *)
Lemma NewChannelPool_rejects_config_witness :
  Config.MaxCap (Demo.config 4 3 None 0) < Config.InitialCap (Demo.config 4 3 None 0) /\
  exists err,
    is_ConfigError err = true /\
    NewChannelPool (Demo.config 4 3 None 0) (Demo.boot 100) = Ok (None, Some err) (Demo.boot 100).
Proof.
  split; [by_run|].
  apply (NewChannelPool_rejects_config (Demo.config 4 3 None 0) (Demo.boot 100)).
  right. right. left. by_run.
Defined.

(** C6 on [Demo.warm] released into [Demo.shut]. *)
Lemma Get_after_Release_witness :
  Release Demo.warm = Ok tt Demo.shut /\
  Get 3 Demo.shut = Ok (None, Some ErrClosed) Demo.shut /\
  (forall ks, bind (do_calls ks) (fun _ => Get 3) Demo.shut
              = Ok (None, Some ErrClosed) Demo.shut) /\
  (forall p, conns (pool Demo.warm) = Some p ->
     Get_loop 4 p Demo.shut = Ok (None, Some ErrClosed) Demo.shut).
Proof.
  split; [exact warm_released|].
  exact (Get_after_Release Demo.warm Demo.shut 3 warm_released).
Defined.

(** C7 on [Demo.stale]: resource 0 was stored at time 100, the timeout is 10
    and [Get] runs at time 150. *)
Lemma Get_evicts_expired_witness :
  open_pool Demo.stale /\
  buf (store Demo.stale) = [mkIdle (Some 0%nat) 100] /\
  100 + idleTimeout (pool Demo.stale) < clock (world Demo.stale) /\
  exists s2,
    Get 2 Demo.stale = Ok (Some 1%nat, None) s2 /\
    trace s2 = [EvFactory; EvClose (Some 0%nat); EvFactory].
Proof.
  assert (Ho : open_pool Demo.stale) by demo_open.
  split; [exact Ho|]. split; [by_run|]. split; [by_run|].
  destruct (Get_evicts_expired Demo.stale (mkIdle (Some 0%nat) 100) [] Demo.close_conn 0 Ho)
    as (s1 & Hs1 & _ & Hfresh); try by_run; try discriminate.
  assert (Hfac : factory (pool Demo.stale) = Some Demo.new_conn) by by_run.
  destruct (Hfresh eq_refl Demo.new_conn Hfac) as (s2 & Hs2 & Hrun & _).
  exists s2. split.
  - rewrite Hrun, Hs1. f_equal.
  - rewrite Hs2. by_run.
Defined.

(** C8 on [Demo.full]: [Put] of resource 7 into the full store. *)
Lemma Put_full_store_witness :
  open_pool Demo.full /\
  Z.of_nat (length (buf (store Demo.full))) = cap (store Demo.full) /\
  exists s',
    Put (Some 7%nat) Demo.full = Ok None s' /\
    store s' = store Demo.full /\
    trace s' = trace Demo.full ++ [EvClose (Some 7%nat)] /\
    Len s' = Ok 2 s'.
Proof.
  assert (Ho : open_pool Demo.full) by demo_open.
  split; [exact Ho|]. split; [by_run|].
  destruct (Put_full_store Demo.full (Some 7%nat) Demo.close_conn Ho)
    as (s' & Hrun & Hs' & _ & _ & _ & HLen); try by_run; try discriminate.
  exists s'. split; [exact Hrun|]. rewrite Hs' in *. simpl.
  split; [reflexivity|]. split; [reflexivity | exact HLen].
Defined.

(** C9 on [Demo.warm]: resources 0 and 1 are destroyed once each. *)
Lemma Release_idempotent_witness :
  open_pool Demo.warm /\
  Release Demo.warm = Ok tt Demo.shut /\
  Release Demo.shut = Ok tt Demo.shut /\
  trace Demo.shut = [EvFactory; EvFactory; EvClose (Some 0%nat); EvClose (Some 1%nat)].
Proof.
  assert (Ho : open_pool Demo.warm) by demo_open.
  split; [exact Ho|].
  destruct (Release_idempotent Demo.warm Ho) as (g & s1 & _ & Hrun & _ & _ & _ & _ & _ & Hagain).
  assert (Hs1 : s1 = Demo.shut).
  { rewrite warm_released in Hrun. injection Hrun as <-. reflexivity. }
  rewrite Hs1 in *. split; [exact Hrun|]. split; [exact Hagain | by_run].
Defined.

(** C10 on [Demo.warm], which has no validation callback, and on the released
    [Demo.shut]. *)
Lemma Ping_needs_callback_witness :
  Some 7%nat <> None /\
  Ping (Some 7%nat) Demo.warm = Panic /\
  Ping (Some 7%nat) Demo.shut = Panic /\
  Close (Some 7%nat) Demo.shut = Ok None Demo.shut.
Proof.
  split; [discriminate|].
  destruct (Ping_needs_callback Demo.warm (Some 7%nat)) as (Hnil & _ & _ & _);
    [discriminate|].
  destruct (Ping_needs_callback Demo.shut (Some 7%nat)) as (_ & Hrel & _ & Hclose);
    [discriminate|].
  split; [apply Hnil; by_run|].
  split; [apply (Hrel Demo.warm warm_released) | apply Hclose; by_run].
Defined.

(** * Further properties of the operations *)

Section Outcomes.

Context {W : Type} `{Clock W} `{Runtime}.

Implicit Types (s : State W) (c : iface) (e : idleConn).

(** ** What a run of the loop of [Get] ends in *)

(** An iteration that removes the front entry [e] and goes on extends the
    outcome of the rest of the run. *)
Lemma Get_outcome_step s e rest (w' : W) (ev : list Event) res :
  buf (store s) = e :: rest ->
  factory_calls ev = O -> (close_calls ev <= 1)%nat ->
  (forall c, In (EvClose c) ev -> c = conn e) ->
  Get_outcome
    (mkState (pool s) (mkChan rest (cap (store s)) (closed (store s))) w' (trace s ++ ev))
    res ->
  Get_outcome s res.
Proof.
  intros Hb Hfc Hcc Hin (r & s' & dropped & added & Hres & Hp & Hcap & Hcl & Htr & Hle & Hdest & Hcase).
  simpl in *.
  exists r, s', (e :: dropped), (ev ++ added).
  split; [assumption|]. split; [assumption|]. split; [assumption|]. split; [assumption|].
  split; [now rewrite Htr, app_assoc|].
  split; [rewrite close_calls_app; simpl; lia|].
  split.
  - intros c Hc. apply in_app_or in Hc. destruct Hc as [Hc|Hc].
    + left. symmetry. now apply Hin.
    + right. now apply Hdest.
  - destruct Hcase as [(e0 & Hsplit & Hr & Hf & Hping)|(Hsplit & Hempty & Hf & Hcreated)].
    + left. exists e0. rewrite Hb, Hsplit, factory_calls_app, Hfc, Hf. auto.
    + right. rewrite Hb, Hsplit, factory_calls_app, Hfc, Hf. auto.
Qed.

Ltac trace_split :=
  first [ reflexivity
        | rewrite <- app_assoc; reflexivity
        | symmetry; apply app_nil_r ].

Ltac only_closes :=
  simpl; intros ? Hin;
  repeat (destruct Hin as [Hin|Hin]; [try discriminate; try (inversion Hin; reflexivity)|]);
  contradiction.

(** The loop of [Get] on an open pool ends in one of the outcomes above. *)
Lemma Get_loop_outcome (l : list idleConn) :
  forall s (fuel : nat),
    open_pool s -> buf (store s) = l -> (length l < fuel)%nat ->
    Get_outcome s (Get_loop fuel store_addr s).
Proof.
  induction l as [|e l IH]; intros s fuel Ho Hb Hfuel;
    (destruct fuel as [|fuel]; [simpl in Hfuel; lia|]).
  - destruct (factory (pool s)) as [f|] eqn:Hf; [|now destruct Ho].
    rewrite (Get_loop_creates s f) by (auto; apply Ho).
    eexists. eexists. exists [], [EvFactory].
    split; [reflexivity|]. simpl.
    repeat (split; [first [reflexivity | lia | (intros c [Hc|[]]; discriminate)]|]).
    right. rewrite Hb. repeat (split; [reflexivity|]). exists f, (world s). auto.
  - assert (Hclosed : closed (store s) = false) by apply Ho.
    assert (IH' : forall w' tr' ev,
      tr' = trace s ++ ev ->
      factory_calls ev = O -> (close_calls ev <= 1)%nat ->
      (forall c, In (EvClose c) ev -> c = conn e) ->
      Get_outcome s
        (Get_loop fuel store_addr (mkState (pool s) (mkChan l (cap (store s)) false) w' tr'))).
    { intros w' tr' ev -> Hfc Hcc Hin.
      apply (Get_outcome_step s e l w' ev); auto. rewrite Hclosed.
      apply IH; [| reflexivity | simpl in *; lia].
      destruct Ho. constructor; simpl; auto. rewrite Hb in *. simpl in *. lia. }
    assert (Hret : forall w' tr' ev,
      tr' = trace s ++ ev ->
      factory_calls ev = O -> close_calls ev = O ->
      (forall g, ping (pool s) = Some g ->
         conn e <> None /\ exists w0, fst (g (conn e) w0) = None) ->
      Get_outcome s
        (Ok (conn e, None) (mkState (pool s) (mkChan l (cap (store s)) false) w' tr'))).
    { intros w' tr' ev -> Hfc Hcc Hping.
      eexists. eexists. exists [], ev.
      split; [reflexivity|]. simpl. rewrite Hclosed, Hcc.
      repeat (split; [first [reflexivity | lia]|]).
      split.
      - intros c Hc. exfalso. revert Hcc Hc. clear. unfold close_calls.
        induction ev as [|x ev IHev]; simpl; [tauto|].
        intros Hcc [Hc|Hc]; [subst x; simpl in Hcc; discriminate|].
        destruct (is_close x); [discriminate | auto].
      - left. exists e. auto. }
    destruct Ho as [Hm Hc Hf Hcl Hd Hcp Hl]. destruct e as [ce te].
    open_state s. subst. run.
    destruct (0 <? it); simpl;
      [destruct (te + it <? clock w); simpl|];
      try (destruct ce as [h|]; simpl;
           [destruct cl as [g|]; [|congruence]; simpl;
            destruct (g (Some h) w) as [r1 w1]; simpl;
            (eapply IH'; [trace_split | reflexivity | cbv; lia | only_closes])
           | (eapply IH'; [trace_split | reflexivity | cbv; lia | only_closes])]);
      (destruct pg as [g|]; simpl;
       [| eapply Hret; [trace_split | reflexivity | reflexivity | intros ? ?; discriminate]]);
      (destruct ce as [h|]; simpl;
       [| eapply IH'; [trace_split | reflexivity | cbv; lia | only_closes]]);
      (destruct (g (Some h) w) as [[err|] w1] eqn:Hg; simpl;
       [ eapply IH'; [trace_split | reflexivity | cbv; lia | only_closes]
       | eapply Hret; [trace_split | reflexivity | reflexivity |];
         intros g0 Hg0; inversion Hg0; subst g0;
         split; [discriminate | exists w; now rewrite Hg] ]).
Qed.

(** X1: [Get] on an open pool returns, with one unit of fuel per idle entry
    and one more: it neither panics nor blocks nor loops for ever.  It leaves
    the pool open and the store no longer than it was.  It calls the creation
    callback at most once, and only after it has emptied the store; if it
    does not call it, the resource it returns is that of an entry that was in
    the store.  Each destruction call it makes is paid for by an entry it
    removed. *)
Theorem Get_returns_on_open_pool s (fuel : nat) :
  open_pool s -> (length (buf (store s)) < fuel)%nat ->
  exists r s',
    Get fuel s = Ok r s' /\ open_pool s' /\ pool s' = pool s /\
    (length (buf (store s')) <= length (buf (store s)))%nat /\
    (factory_calls (trace s') <= S (factory_calls (trace s)))%nat /\
    (factory_calls (trace s') = S (factory_calls (trace s)) -> buf (store s') = []) /\
    (factory_calls (trace s') = factory_calls (trace s) ->
       exists e, In e (buf (store s)) /\ r = (conn e, None)) /\
    (close_calls (trace s') + length (buf (store s'))
     <= close_calls (trace s) + length (buf (store s)))%nat.
Proof.
  intros Ho Hfuel. rewrite Get_open by apply Ho.
  destruct (Get_loop_outcome _ s fuel Ho eq_refl Hfuel)
    as (r & s' & dropped & added & Hres & Hp & Hcap & Hcl & Htr & Hle & _ & Hcase).
  exists r, s'. split; [assumption|].
  assert (Hlen : (length (buf (store s')) <= length (buf (store s)))%nat).
  { destruct Hcase as [(e & Hsplit & _)|(_ & Hempty & _)].
    - rewrite Hsplit, length_app. simpl. lia.
    - rewrite Hempty. simpl. lia. }
  split.
  { destruct Ho as [Hm Hc Hf Hcls Hd Hcp Hl].
    constructor; rewrite ?Hp, ?Hcap, ?Hcl; auto. lia. }
  split; [assumption|]. split; [assumption|].
  rewrite Htr, factory_calls_app, close_calls_app.
  destruct Hcase as [(e & Hsplit & Hr & Hf & _)|(Hsplit & Hempty & Hf & _)]; rewrite Hf.
  - split; [lia|]. split; [lia|]. split.
    + intros _. exists e. split; [|assumption]. rewrite Hsplit. apply in_elt.
    + rewrite Hsplit, length_app. simpl. lia.
  - split; [lia|]. split; [auto|]. split; [lia|].
    rewrite Hempty, Hsplit. simpl. lia.
Qed.

(** X2: with a validation callback configured, a resource that [Get] on an
    open pool takes from the store is never nil and was accepted by the
    callback; otherwise [Get] has emptied the store and returns the outcome
    of one creation call. *)
Theorem Get_serves_only_validated s (g : iface -> W -> error * W) (fuel : nat) :
  open_pool s -> ping (pool s) = Some g ->
  (length (buf (store s)) < fuel)%nat ->
  exists r s',
    Get fuel s = Ok r s' /\
    ((exists e h w0,
        In e (buf (store s)) /\ conn e = Some h /\ r = (Some h, None) /\
        fst (g (Some h) w0) = None /\
        factory_calls (trace s') = factory_calls (trace s))
     \/
     (buf (store s') = [] /\
      factory_calls (trace s') = S (factory_calls (trace s)) /\
      exists f w1, factory (pool s) = Some f /\ r = created (f w1))).
Proof.
  intros Ho Hg Hfuel. rewrite Get_open by apply Ho.
  destruct (Get_loop_outcome _ s fuel Ho eq_refl Hfuel)
    as (r & s' & dropped & added & Hres & Hp & Hcap & Hcl & Htr & Hle & _ & Hcase).
  exists r, s'. split; [assumption|].
  rewrite Htr, factory_calls_app.
  destruct Hcase as [(e & Hsplit & Hr & Hf & Hping)|(Hsplit & Hempty & Hf & Hcreated)].
  - left. destruct (Hping g Hg) as (Hn & w0 & Hacc).
    destruct (conn e) as [h|] eqn:Hce; [|congruence].
    exists e, h, w0. rewrite Hsplit, Hf.
    repeat split; auto; try apply in_elt; lia.
  - right. rewrite Hf. repeat split; auto. lia.
Qed.

(** ** Put *)

(** [Put] on an open pool whose store is full destroys the resource. *)
Lemma Put_destroys s c (g : iface -> W -> error * W) :
  open_pool s -> c <> None -> close (pool s) = Some g ->
  cap (store s) <= Z.of_nat (length (buf (store s))) ->
  Put c s =
  Ok (fst (g c (world s)))
     (mkState (pool s) (store s) (snd (g c (world s))) (trace s ++ [EvClose c])).
Proof.
  intros [Hm Hc Hf Hcl Hd Hcp Hl] Hn Hg Hfull.
  destruct c as [h|]; [clear Hn | congruence].
  open_state s. subst. run.
  destruct (Z.leb_spec cp (Z.of_nat (length b))); [|lia].
  simpl. now destruct (g (Some h) w).
Qed.

(** [Put] on an open pool returns and leaves the pool open, with the capacity
    of its store unchanged. *)
Lemma Put_keeps_open s c :
  open_pool s -> c <> None ->
  exists r s', Put c s = Ok r s' /\ open_pool s' /\ cap (store s') = cap (store s).
Proof.
  intros Ho Hn.
  destruct (Z.ltb_spec (Z.of_nat (length (buf (store s)))) (cap (store s))) as [Hroom|Hfull].
  - rewrite Put_stores by assumption. eexists. eexists.
    split; [reflexivity|]. split; [|reflexivity].
    destruct Ho. constructor; simpl; auto. rewrite length_app. simpl. lia.
  - destruct (close (pool s)) as [g|] eqn:Hg; [|now destruct Ho].
    rewrite (Put_destroys s c g) by assumption. eexists. eexists.
    split; [reflexivity|]. split; [|reflexivity].
    revert Ho. now apply open_pool_frame.
Qed.

(** X4: [Put] of a non-nil resource on an open pool returns, and does
    exactly one of two things.  If the store has room, the resource is
    appended to it with the current time, nothing is called and nil is
    returned.  If the store is full, the store is left as it is, the
    destruction callback is called once on the resource and its result is
    returned.  The resource is never both stored and destroyed, and never
    dropped. *)
Theorem Put_stores_or_destroys s c :
  open_pool s -> c <> None ->
  exists r s',
    Put c s = Ok r s' /\ pool s' = pool s /\
    ((Z.of_nat (length (buf (store s))) < cap (store s) /\
      r = None /\
      store s' = mkChan (buf (store s) ++ [mkIdle c (clock (world s))]) (cap (store s)) false /\
      world s' = world s /\ trace s' = trace s)
     \/
     (Z.of_nat (length (buf (store s))) = cap (store s) /\
      store s' = store s /\
      trace s' = trace s ++ [EvClose c] /\
      exists g, close (pool s) = Some g /\
                r = fst (g c (world s)) /\ world s' = snd (g c (world s)))).
Proof.
  intros Ho Hn.
  destruct (Z.ltb_spec (Z.of_nat (length (buf (store s)))) (cap (store s))) as [Hroom|Hfull].
  - rewrite Put_stores by assumption. eexists. eexists.
    split; [reflexivity|]. split; [reflexivity|]. left. simpl. auto.
  - destruct (close (pool s)) as [g|] eqn:Hg; [|now destruct Ho].
    rewrite (Put_destroys s c g) by assumption. eexists. eexists.
    split; [reflexivity|]. split; [reflexivity|]. right. simpl.
    split; [destruct Ho; lia|]. split; [reflexivity|]. split; [reflexivity|].
    exists g. auto.
Qed.

(** X11: [Put] never places a nil resource in the store.  In any state
    whatever, [Put] of nil returns the nil-connection error and leaves the
    state as it is: the test comes before the mutex is touched, so it
    returns even while the mutex is held, where [Put] of a non-nil resource
    blocks.  And a [Put] that returns leaves a store that held no nil
    resource without one. *)
Theorem Put_keeps_store_free_of_nil s c :
  Put None s = Ok (Some ErrNilConn) s /\
  (mu (pool s) = true -> c <> None -> Put c s = Deadlock) /\
  (forall r s',
     Forall (fun e => conn e <> None) (buf (store s)) ->
     Put c s = Ok r s' ->
     Forall (fun e => conn e <> None) (buf (store s'))).
Proof.
  split; [reflexivity|]. split.
  { intros Hm Hn. destruct c as [h|]; [|congruence].
    open_state s. subst. reflexivity. }
  intros r s' Hall Hrun. destruct c as [h|].
  - open_state s. revert Hrun. run.
    destruct m; simpl; [discriminate|].
    destruct cs as [p|]; simpl.
    + destruct cd; simpl; [discriminate|].
      destruct (cp <=? Z.of_nat (length b)); simpl.
      * destruct cl as [g|]; simpl.
        -- destruct (g (Some h) w) as [r1 w1]. simpl.
           intros Hrun. inversion Hrun; subst. assumption.
        -- intros Hrun. inversion Hrun; subst. assumption.
      * intros Hrun. inversion Hrun; subst. simpl.
        apply Forall_app. split; [assumption|].
        constructor; [discriminate | constructor].
    + destruct cl as [g|]; simpl.
      * destruct (g (Some h) w) as [r1 w1]. simpl.
        intros Hrun. inversion Hrun; subst. assumption.
      * intros Hrun. inversion Hrun; subst. assumption.
  - inversion Hrun; subst. auto.
Qed.

(** ** Sequences of calls on an open pool *)

(** One call on an open pool returns and leaves the pool open or released,
    with the capacity of its store unchanged. *)
Lemma do_call_keeps s (k : call) :
  open_pool s -> well_fuelled (Z.to_nat (cap (store s))) k ->
  exists s',
    do_call k s = Ok tt s' /\ (open_pool s' \/ released_pool s') /\
    cap (store s') = cap (store s).
Proof.
  intros Ho Hk. destruct k as [fuel|c|c| |]; unfold do_call, bind.
  - simpl in Hk. rewrite Get_open by apply Ho.
    assert (Hfuel : (length (buf (store s)) < fuel)%nat) by (destruct Ho; lia).
    destruct (Get_loop_outcome _ s fuel Ho eq_refl Hfuel)
      as (r & s' & dropped & added & Hres & Hp & Hcap & Hcl & Htr & Hle & _ & Hcase).
    rewrite Hres. exists s'. split; [reflexivity|]. split; [|assumption]. left.
    destruct Ho as [Hm Hc Hf Hcls Hd Hcp Hl].
    constructor; rewrite ?Hp, ?Hcap, ?Hcl; auto.
    destruct Hcase as [(e & Hsplit & _)|(_ & Hempty & _)].
    + rewrite Hsplit, length_app in Hl. simpl in Hl. lia.
    + rewrite Hempty. simpl. lia.
  - destruct c as [h|]; [|exists s; simpl; auto].
    destruct (Put_keeps_open s (Some h) Ho) as (r & s' & Hrun & Ho' & Hcap);
      [discriminate|].
    rewrite Hrun. exists s'. auto.
  - destruct (Close_returns s c) as (r & s' & Hrun & Hp & Hs); [apply Ho|].
    rewrite Hrun. exists s'. split; [reflexivity|]. split; [|now rewrite Hs].
    left. now apply (open_pool_frame s).
  - destruct (close (pool s)) as [g|] eqn:Hg; [|now destruct Ho].
    rewrite (Release_open s g); try apply Ho; auto.
    + eexists. split; [reflexivity|]. split; [|reflexivity].
      right. constructor; reflexivity.
    + destruct Ho as [Hm Hc]. congruence.
  - rewrite Len_open by assumption. exists s. auto.
Qed.

(** X3: from an open pool, every sequence of calls of [Get], [Put], [Close],
    [Release] and [Len] returns (each [Get] having fuel for a full store): no
    call panics or blocks.  The pool ends open or released, the capacity of
    the store is what it was, and [Len] answers with a number between 0 and
    that capacity. *)
Theorem calls_keep_pool_sound (ks : list call) :
  forall s,
    open_pool s -> Forall (well_fuelled (Z.to_nat (cap (store s)))) ks ->
    exists s',
      do_calls ks s = Ok tt s' /\ (open_pool s' \/ released_pool s') /\
      cap (store s') = cap (store s) /\
      exists n, Len s' = Ok n s' /\ 0 <= n <= cap (store s).
Proof.
  induction ks as [|k ks IH]; intros s Ho Hks.
  - exists s. split; [reflexivity|]. split; [auto|]. split; [reflexivity|].
    exists (Z.of_nat (length (buf (store s)))). split; [now apply Len_open|].
    destruct Ho; lia.
  - inversion Hks as [|k' ks' Hk Hrest]; subst.
    destruct (do_call_keeps s k Ho Hk) as (s1 & Hrun & Hstate & Hcap).
    simpl. unfold bind. rewrite Hrun.
    destruct Hstate as [Ho1|Hrel].
    + rewrite <- Hcap in Hrest.
      destruct (IH s1 Ho1 Hrest) as (s' & Hruns & Hst & Hcap' & n & HLen & Hn).
      exists s'. split; [assumption|]. split; [assumption|].
      split; [congruence|]. exists n. split; [assumption|]. now rewrite <- Hcap.
    + rewrite released_pool_terminal by assumption.
      exists s1. split; [reflexivity|]. split; [auto|]. split; [assumption|].
      exists 0. split; [now apply released_pool_Len|]. destruct Ho; lia.
Qed.

(** ** First in, first out *)

(** Returning the resources [cs] to a store with room for them appends them
    in order. *)
Lemma put_all_stores (cs : list iface) :
  forall s,
    open_pool s -> Forall (fun c => c <> None) cs ->
    Z.of_nat (length (buf (store s))) + Z.of_nat (length cs) <= cap (store s) ->
    put_all cs s =
    Ok (map (fun _ => None) cs)
       (mkState (pool s)
          (mkChan (buf (store s) ++ map (fun c => mkIdle c (clock (world s))) cs)
             (cap (store s)) false)
          (world s) (trace s)).
Proof.
  induction cs as [|c cs IH]; intros s Ho Hall Hroom.
  - destruct Ho as [Hm Hc Hf Hcl Hd Hcp Hl]. open_state s. subst.
    unfold ret. now rewrite app_nil_r.
  - inversion Hall as [|c' cs' Hc Hcs]; subst. simpl in Hroom.
    simpl. unfold bind at 1. rewrite Put_stores by (auto; lia).
    unfold bind at 1. rewrite IH; simpl; auto.
    + unfold ret. now rewrite <- app_assoc.
    + destruct Ho. constructor; simpl; auto. rewrite length_app. simpl. lia.
    + rewrite length_app. simpl. lia.
Qed.



(** ** A failed pre-warm *)

(** A pre-warm loop whose creation callback fails releases the pool: the
    entries already stored and those created so far are destroyed. *)
Lemma prewarm_fails (f : W -> (iface * error) * W) (g : iface -> W -> error * W)
  (n : nat) :
  forall s l err w',
    mu (pool s) = false -> conns (pool s) = Some store_addr ->
    factory (pool s) = Some f -> close (pool s) = Some g ->
    closed (store s) = false ->
    Z.of_nat (length (buf (store s))) + Z.of_nat n <= cap (store s) ->
    fill_fails f n (world s) = Some (l, err, w') ->
    prewarm n s =
    Ok (None, Some (ErrFill err))
       (mkState (mkPool false None None None None (idleTimeout (pool s)))
          (mkChan [] (cap (store s)) true)
          (close_all g (buf (store s) ++ l) w')
          (trace s ++ repeat EvFactory (S (length l))
             ++ close_events (buf (store s) ++ l))).
Proof.
  induction n as [|n IH]; intros s l err w' Hm Hc Hf Hg Hd Hroom Hfill;
    [discriminate|].
  simpl in Hfill.
  destruct (f (world s)) as [[c [e|]] w1] eqn:Hfw.
  - inversion Hfill; subst. clear Hfill.
    open_state s. subst. simpl in Hfw.
    cbn [prewarm]. unfold bind at 1. unfold field at 1. cbn [pool factory].
    unfold bind at 1. unfold call_factory. cbn [world]. rewrite Hfw.
    unfold bind at 1.
    rewrite (Release_open _ g) by (simpl; congruence).
    simpl. unfold ret. rewrite !app_nil_r, <- app_assoc. reflexivity.
  - destruct (fill_fails f n w1) as [[[l1 e1] w2]|] eqn:Hrest; [|discriminate].
    inversion Hfill; subst. clear Hfill.
    open_state s. subst. simpl in Hfw.
    cbn [prewarm]. unfold bind at 1. unfold field at 1. cbn [pool factory].
    unfold bind at 1. unfold call_factory. cbn [world]. rewrite Hfw.
    unfold bind at 1. unfold field at 1. unfold bind at 1. unfold time_Now at 1.
    unfold bind at 1. unfold chan_send, chan_full. simpl.
    destruct (Z.leb_spec cp (Z.of_nat (length b))); [lia|].
    erewrite IH; simpl; eauto.
    + rewrite <- !app_assoc. simpl. reflexivity.
    + rewrite length_app. simpl. lia.
Qed.

(** X6: when the configuration is accepted, the runtime can allocate the
    channel, and the creation callback fails during pre-warm, after
    [length l] successful calls, [NewChannelPool] returns no pool and the
    error of the callback wrapped by [ErrFill].  The
    pool it had set up is released, and the destruction callback has been
    called once on each of the resources created before the failure, in the
    order of their creation: none of them is leaked. *)
Theorem NewChannelPool_failed_prewarm_cleans_up (cfg : Config.t W) s
  (f : W -> (iface * error) * W) (g : iface -> W -> error * W)
  (l : list idleConn) (err : errv) (w' : W) :
  0 <= Config.InitialCap cfg <= Config.MaxCap cfg -> 0 < Config.MaxCap cfg ->
  chan_fits (Config.MaxCap cfg) = true ->
  Config.Factory cfg = Some f -> Config.Close cfg = Some g ->
  fill_fails f (Z.to_nat (Config.InitialCap cfg)) (world s) = Some (l, err, w') ->
  exists s',
    NewChannelPool cfg s = Ok (None, Some (ErrFill err)) s' /\
    released_pool s' /\ buf (store s') = [] /\ closed (store s') = true /\
    trace s' = trace s ++ repeat EvFactory (S (length l)) ++ close_events l /\
    close_calls (trace s') = (close_calls (trace s) + length l)%nat /\
    world s' = close_all g l w'.
Proof.
  intros Hi Hmax Hfit Hf Hg Hfill. unfold NewChannelPool.
  destruct (Z.ltb_spec (Config.InitialCap cfg) 0); [lia|].
  destruct (Z.leb_spec (Config.MaxCap cfg) 0); [lia|].
  destruct (Z.ltb_spec (Config.MaxCap cfg) (Config.InitialCap cfg)); [lia|].
  simpl. rewrite Hf, Hg. unfold bind at 1. unfold make. rewrite Hfit.
  destruct (Z.ltb_spec (Config.MaxCap cfg) 0); [lia|].
  simpl. unfold ret at 1. unfold bind at 1. unfold bind at 1.
  eexists. split.
  - destruct (Config.Ping cfg) as [pg|]; simpl;
      erewrite (prewarm_fails f g); simpl; eauto; simpl; lia.
  - simpl. split; [constructor; reflexivity|].
    split; [reflexivity|]. split; [reflexivity|]. split; [reflexivity|].
    split; [|reflexivity].
    change (EvFactory :: repeat EvFactory (length l) ++ close_events l)
      with (repeat EvFactory (S (length l)) ++ close_events l).
    rewrite !close_calls_app, close_calls_events, close_calls_repeat. lia.
Qed.


(** ** Idle timeout *)

(** One iteration of the loop of [Get] on an expired entry. *)
Lemma Get_loop_evicts_front s e rest (g : iface -> W -> error * W) (k : nat) :
  mu (pool s) = false -> close (pool s) = Some g ->
  buf (store s) = e :: rest -> conn e <> None ->
  0 < idleTimeout (pool s) ->
  t e + idleTimeout (pool s) < clock (world s) ->
  Get_loop (S k) store_addr s =
  Get_loop k store_addr
    (mkState (pool s) (mkChan rest (cap (store s)) (closed (store s)))
       (snd (g (conn e) (world s))) (trace s ++ [EvClose (conn e)])).
Proof.
  intros Hm Hg Hb Hn Ht Hexp. destruct e as [[h|] te]; simpl in *; [|congruence].
  open_state s. subst. run.
  destruct (Z.ltb_spec 0 it); [|lia]. simpl.
  destruct (Z.ltb_spec (te + it) (clock w)); [|lia]. simpl.
  destruct (g (Some h) w) as [r w1]. reflexivity.
Qed.

(** One iteration of the loop of [Get] on an entry that is not expired, with
    no validation. *)
Lemma Get_loop_fresh s e rest (k : nat) :
  buf (store s) = e :: rest -> ping (pool s) = None ->
  0 < idleTimeout (pool s) ->
  clock (world s) <= t e + idleTimeout (pool s) ->
  Get_loop (S k) store_addr s =
  Ok (conn e, None)
     (mkState (pool s) (mkChan rest (cap (store s)) (closed (store s)))
        (world s) (trace s)).
Proof.
  intros Hb Hp Ht Hfresh. open_state s. subst. run.
  destruct (Z.ltb_spec 0 it); [|lia]. simpl.
  destruct (Z.ltb_spec (t e + it) (clock w)); [lia|]. reflexivity.
Qed.

(** The loop of [Get] destroys a whole front part of expired entries, oldest
    first, provided the destruction callback does not turn the clock back. *)
Lemma Get_loop_evicts (g : iface -> W -> error * W) (stale : list idleConn) :
  (forall c w, clock w <= clock (snd (g c w))) ->
  forall s rest (k : nat),
    mu (pool s) = false -> close (pool s) = Some g ->
    0 < idleTimeout (pool s) ->
    buf (store s) = stale ++ rest ->
    Forall (fun x => conn x <> None /\ t x + idleTimeout (pool s) < clock (world s)) stale ->
    Get_loop (length stale + k) store_addr s =
    Get_loop k store_addr
      (mkState (pool s) (mkChan rest (cap (store s)) (closed (store s)))
         (close_all g stale (world s)) (trace s ++ close_events stale)).
Proof.
  intros Hmono. induction stale as [|x stale IH]; intros s rest k Hm Hg Ht Hb Hall.
  - simpl in *. open_state s. subst. now rewrite app_nil_r.
  - inversion Hall as [|x' stale' [Hn Hexp] Hrest]; subst.
    cbn [length Nat.add].
    rewrite (Get_loop_evicts_front s x (stale ++ rest) g) by assumption.
    rewrite (IH _ rest); simpl; auto.
    + now rewrite <- app_assoc.
    + eapply Forall_impl; [|exact Hrest]. simpl. intros a [Ha Hta].
      split; [assumption|]. specialize (Hmono (conn x) (world s)). lia.
Qed.

(** X7: with a positive idle timeout and no validation, [Get] on an open
    pool whose store starts with the expired entries [stale] calls the
    destruction callback once on each of them, oldest first (the callback
    not turning the clock back).  If the entry that follows is not yet
    expired, that is, its timestamp plus the timeout is not before the
    current time, [Get] returns its resource and leaves the entries after it
    in the store; if no entry follows, [Get] makes one creation call and
    returns its outcome. *)
Theorem Get_skips_expired_prefix s (g : iface -> W -> error * W)
  (stale rest : list idleConn) (fuel : nat) :
  open_pool s -> close (pool s) = Some g -> ping (pool s) = None ->
  0 < idleTimeout (pool s) ->
  (forall c w, clock w <= clock (snd (g c w))) ->
  buf (store s) = stale ++ rest ->
  Forall (fun x => conn x <> None /\ t x + idleTimeout (pool s) < clock (world s)) stale ->
  (forall e rest',
     rest = e :: rest' ->
     clock (close_all g stale (world s)) <= t e + idleTimeout (pool s) ->
     Get (length stale + S fuel) s =
     Ok (conn e, None)
        (mkState (pool s) (mkChan rest' (cap (store s)) false)
           (close_all g stale (world s)) (trace s ++ close_events stale))) /\
  (rest = [] ->
   forall f, factory (pool s) = Some f ->
     Get (length stale + S fuel) s =
     Ok (created (f (close_all g stale (world s))))
        (mkState (pool s) (mkChan [] (cap (store s)) false)
           (snd (f (close_all g stale (world s))))
           (trace s ++ close_events stale ++ [EvFactory]))).
Proof.
  intros Ho Hg Hp Ht Hmono Hb Hall.
  assert (Hm : mu (pool s) = false) by apply Ho.
  assert (Hd : closed (store s) = false) by apply Ho.
  rewrite Get_open by apply Ho.
  rewrite (Get_loop_evicts g stale Hmono s rest) by assumption.
  rewrite Hd. split.
  - intros e rest' -> Hfresh. now rewrite (Get_loop_fresh _ e rest').
  - intros -> f Hf. rewrite (Get_loop_creates _ f) by auto.
    simpl. now rewrite <- app_assoc.
Qed.

(** X8: idle time is counted from the [Put].  With a positive idle timeout
    and no validation, a non-nil resource returned to the empty store of an
    open pool is served by the next [Get] as long as the clock then reads no
    more than the time of the [Put] plus the timeout, the bound included;
    nothing is called, and the store is empty again. *)
Theorem Put_then_Get_within_timeout s c (w' : W) (fuel : nat) :
  open_pool s -> c <> None -> buf (store s) = [] -> ping (pool s) = None ->
  0 < idleTimeout (pool s) ->
  clock w' <= clock (world s) + idleTimeout (pool s) ->
  exists s1,
    Put c s = Ok None s1 /\
    Get (S fuel) (with_world w' s1) = Ok (c, None) (with_world w' s).
Proof.
  intros Ho Hn Hb Hp Ht Hw.
  assert (Hroom : Z.of_nat (length (buf (store s))) < cap (store s))
    by (destruct Ho; rewrite Hb; simpl; lia).
  eexists. split; [now apply Put_stores|].
  rewrite Get_open by (simpl; apply Ho).
  rewrite (Get_loop_fresh _ (mkIdle c (clock (world s))) []); simpl; auto.
  - destruct Ho as [Hm Hc Hf Hcl Hd Hcp Hl]. open_state s. subst. reflexivity.
  - now rewrite Hb.
Qed.

(** ** Validation *)

(** X10: with idle timeout disabled and a validation callback that rejects
    every resource, [Get] on an open pool empties the store without a single
    destruction call, makes one creation call and returns its outcome: no
    idle resource is served, and none of those dropped is closed. *)
Theorem Get_rejecting_validation_drains s (g : iface -> W -> error * W) (fuel : nat) :
  open_pool s -> ping (pool s) = Some g ->
  (forall c w, fst (g c w) <> None) ->
  idleTimeout (pool s) <= 0 ->
  (length (buf (store s)) < fuel)%nat ->
  exists f w1 s',
    factory (pool s) = Some f /\
    Get fuel s = Ok (created (f w1)) s' /\
    pool s' = pool s /\ buf (store s') = [] /\
    close_calls (trace s') = close_calls (trace s) /\
    factory_calls (trace s') = S (factory_calls (trace s)).
Proof.
  intros Ho Hg Hrej Ht Hfuel.
  destruct (factory (pool s)) as [f|] eqn:Hf; [|now destruct Ho].
  destruct (Get_loop_rejects_all g f (buf (store s)) Hrej s fuel)
    as (w1 & s' & Hrun & Hrest); auto; try apply Ho.
  exists f, w1, s'. split; [reflexivity|].
  rewrite Get_open by apply Ho. auto.
Qed.

(** ** How the operations compose *)

(** X12: [Close] does not take the resource out of the store.  Without idle
    timeout and validation, if the resource of the oldest idle entry of an
    open pool is passed to [Close], the destruction callback is called on it
    and the entry stays where it is: the next [Get] returns that same,
    already destroyed, resource. *)
Theorem Close_leaves_idle_entry s e rest (g : iface -> W -> error * W) (fuel : nat) :
  open_pool s -> close (pool s) = Some g ->
  idleTimeout (pool s) <= 0 -> ping (pool s) = None ->
  buf (store s) = e :: rest -> conn e <> None ->
  exists s1,
    Close (conn e) s = Ok (fst (g (conn e) (world s))) s1 /\
    store s1 = store s /\
    trace s1 = trace s ++ [EvClose (conn e)] /\
    Get (S fuel) s1 =
    Ok (conn e, None)
       (mkState (pool s) (mkChan rest (cap (store s)) false) (world s1) (trace s1)).
Proof.
  intros [Hm Hc Hf Hcl Hd Hcp Hl] Hg Ht Hp Hb Hn.
  destruct e as [[h|] te]; simpl in *; [clear Hn | congruence].
  open_state s. subst.
  destruct (g (Some h) w) as [r w1] eqn:Hgw.
  eexists. split; [run; rewrite Hgw; reflexivity|].
  split; [reflexivity|]. split; [reflexivity|].
  run. destruct (Z.ltb_spec 0 it); [lia | reflexivity].
Qed.

(** X13: every resource returned to the store is destroyed by [Release],
    once for each [Put]: after the non-nil resources [cs] were returned to
    an open pool with room for them, [Release] calls the destruction
    callback on the entries that were idle before and then on [cs], in
    order.  A resource returned twice is destroyed twice. *)
Theorem Puts_then_Release_destroys_each s (cs : list iface)
  (g : iface -> W -> error * W) :
  open_pool s -> close (pool s) = Some g ->
  Forall (fun c => c <> None) cs ->
  Z.of_nat (length (buf (store s))) + Z.of_nat (length cs) <= cap (store s) ->
  exists s1 s2,
    put_all cs s = Ok (map (fun _ => None) cs) s1 /\
    Release s1 = Ok tt s2 /\ released_pool s2 /\
    trace s2 = trace s ++ close_events (buf (store s)) ++ map EvClose cs.
Proof.
  intros Ho Hg Hall Hroom. eexists. eexists.
  split; [now apply put_all_stores|].
  split.
  - apply (Release_open _ g); simpl; auto; try apply Ho.
    destruct Ho as [Hm Hc]. congruence.
  - split; [constructor; reflexivity|]. simpl.
    unfold close_events. now rewrite map_app, map_map.
Qed.

(** Borrowing [n] times from an empty open store creates [n] resources. *)
Lemma get_n_creates (f : W -> (iface * error) * W) (n : nat) :
  forall s l w' (fuel : nat),
    mu (pool s) = false -> conns (pool s) = Some store_addr ->
    factory (pool s) = Some f ->
    buf (store s) = [] -> closed (store s) = false ->
    fill f n (world s) = Some (l, w') ->
    get_n (S fuel) n s =
    Ok (map (fun x => (conn x, None)) l)
       (mkState (pool s) (store s) w' (trace s ++ repeat EvFactory n)).
Proof.
  induction n as [|n IH]; intros s l w' fuel Hm Hc Hf Hb Hd Hfill.
  - simpl in Hfill. inversion Hfill; subst. open_state s. subst.
    simpl. unfold ret. now rewrite app_nil_r.
  - simpl in Hfill.
    destruct (f (world s)) as [[c [err|]] w1] eqn:Hfw; [discriminate|].
    destruct (fill f n w1) as [[l1 w2]|] eqn:Hrest; [|discriminate].
    inversion Hfill; subst.
    simpl. unfold bind at 1. rewrite Get_open by assumption.
    rewrite (Get_loop_creates s f) by assumption.
    unfold bind at 1. rewrite Hfw. simpl.
    rewrite (IH _ l1 w'); simpl; auto.
    unfold created, ret. simpl. now rewrite <- app_assoc.
Qed.

(** X14: [Get] never waits for a resource to come back and does not count
    the resources it has handed out.  On an open pool with an empty store,
    [n] calls of [Get] in a row make [n] creation calls, as long as these
    succeed, and return the [n] new resources, however large [n] is compared
    with the capacity; the store stays empty. *)
Theorem Gets_on_empty_store_create s (f : W -> (iface * error) * W) (n : nat)
  (l : list idleConn) (w' : W) (fuel : nat) :
  open_pool s -> factory (pool s) = Some f -> buf (store s) = [] ->
  fill f n (world s) = Some (l, w') ->
  exists s',
    get_n (S fuel) n s = Ok (map (fun x => (conn x, None)) l) s' /\
    length l = n /\
    store s' = store s /\ pool s' = pool s /\
    factory_calls (trace s') = (factory_calls (trace s) + n)%nat /\
    close_calls (trace s') = close_calls (trace s).
Proof.
  intros Ho Hf Hb Hfill. eexists.
  split; [apply (get_n_creates f n s l w'); auto; apply Ho|].
  split; [now apply fill_length in Hfill|]. simpl.
  rewrite factory_calls_app, close_calls_app, factory_calls_repeat, close_calls_repeat.
  repeat split; lia.
Qed.

End Outcomes.

(** ** The further properties on the concrete world *)

(** X1 on [Demo.warm]. *)
Lemma Get_returns_on_open_pool_witness :
  open_pool Demo.warm /\
  exists r s', Get 3 Demo.warm = Ok r s' /\ open_pool s' /\
               (factory_calls (trace s') <= S (factory_calls (trace Demo.warm)))%nat.
Proof.
  assert (Ho : open_pool Demo.warm) by demo_open.
  split; [exact Ho|].
  destruct (Get_returns_on_open_pool Demo.warm 3 Ho) as (r & s' & Hrun & Ho' & _ & _ & Hf & _).
  - vm_compute. lia.
  - exists r, s'. auto.
Defined.

(** X2 on [Demo.checked], whose validation accepts every resource. *)
Lemma Get_serves_only_validated_witness :
  open_pool Demo.checked /\ ping (pool Demo.checked) = Some Demo.ping_ok /\
  exists r s', Get 3 Demo.checked = Ok r s'.
Proof.
  assert (Ho : open_pool Demo.checked) by demo_open.
  assert (Hp : ping (pool Demo.checked) = Some Demo.ping_ok) by by_run.
  split; [exact Ho|]. split; [exact Hp|].
  destruct (Get_serves_only_validated Demo.checked Demo.ping_ok 3 Ho Hp)
    as (r & s' & Hrun & _).
  - vm_compute. lia.
  - exists r, s'. exact Hrun.
Defined.

(** X3 on [Demo.warm]: a client borrows, returns, discards, asks for the
    size, releases and borrows again. *)
Lemma calls_keep_pool_sound_witness :
  open_pool Demo.warm /\
  exists s',
    do_calls [CallGet 4; CallPut (Some 7%nat); CallClose (Some 0%nat); CallLen;
              CallRelease; CallGet 4] Demo.warm = Ok tt s' /\
    (open_pool s' \/ released_pool s').
Proof.
  assert (Ho : open_pool Demo.warm) by demo_open.
  split; [exact Ho|].
  destruct (calls_keep_pool_sound
              [CallGet 4; CallPut (Some 7%nat); CallClose (Some 0%nat); CallLen;
               CallRelease; CallGet 4] Demo.warm Ho)
    as (s' & Hrun & Hst & _).
  - repeat constructor; vm_compute; lia.
  - exists s'. auto.
Defined.

(** X4 on [Demo.warm], whose store has room for one more entry. *)
Lemma Put_stores_or_destroys_witness :
  open_pool Demo.warm /\ Some 7%nat <> None /\
  exists r s', Put (Some 7%nat) Demo.warm = Ok r s' /\ pool s' = pool Demo.warm.
Proof.
  assert (Ho : open_pool Demo.warm) by demo_open.
  split; [exact Ho|]. split; [discriminate|].
  destruct (Put_stores_or_destroys Demo.warm (Some 7%nat) Ho) as (r & s' & Hrun & Hp & _).
  - discriminate.
  - exists r, s'. auto.
Defined.


(** X6 on a creation callback that succeeds once and then fails, for an
    initial count of 2: resource 0 is created and destroyed again. *)
Lemma NewChannelPool_failed_prewarm_cleans_up_witness :
  fill_fails Demo.flaky_factory 2 (world (Demo.boot 100))
  = Some ([mkIdle (Some 0%nat) 100], ErrUser "dial failed", (100, 1%nat)) /\
  exists s',
    NewChannelPool
      (Config.mk 2 3 (Some Demo.flaky_factory) (Some Demo.close_conn) None 0)
      (Demo.boot 100)
    = Ok (None, Some (ErrFill (ErrUser "dial failed"))) s' /\
    released_pool s' /\
    trace s' = [EvFactory; EvFactory; EvClose (Some 0%nat)].
Proof.
  assert (Hfill : fill_fails Demo.flaky_factory 2 (world (Demo.boot 100))
                  = Some ([mkIdle (Some 0%nat) 100], ErrUser "dial failed", (100, 1%nat)))
    by by_run.
  split; [exact Hfill|].
  destruct (NewChannelPool_failed_prewarm_cleans_up
              (Config.mk 2 3 (Some Demo.flaky_factory) (Some Demo.close_conn) None 0)
              (Demo.boot 100) Demo.flaky_factory Demo.close_conn
              [mkIdle (Some 0%nat) 100] (ErrUser "dial failed") (100, 1%nat))
    as (s' & Hrun & Hrel & _ & _ & Htr & _).
  - vm_compute. split; discriminate.
  - by_run.
  - by_run.
  - reflexivity.
  - reflexivity.
  - exact Hfill.
  - exists s'. split; [exact Hrun|]. split; [exact Hrel|]. rewrite Htr. by_run.
Defined.

(** X7 on [Demo.mixed] at time 150, timeout 10: resources 0 and 1, stored at
    time 100, are destroyed and resource 7, stored at time 150, is served. *)
Lemma Get_skips_expired_prefix_witness :
  open_pool Demo.mixed /\
  buf (store Demo.mixed)
  = [mkIdle (Some 0%nat) 100; mkIdle (Some 1%nat) 100] ++ [mkIdle (Some 7%nat) 150] /\
  exists s',
    Get 3 Demo.mixed = Ok (Some 7%nat, None) s' /\
    trace s' = trace Demo.mixed ++ [EvClose (Some 0%nat); EvClose (Some 1%nat)] /\
    buf (store s') = [].
Proof.
  assert (Ho : open_pool Demo.mixed) by demo_open.
  assert (Hb : buf (store Demo.mixed)
               = [mkIdle (Some 0%nat) 100; mkIdle (Some 1%nat) 100]
                   ++ [mkIdle (Some 7%nat) 150]) by by_run.
  split; [exact Ho|]. split; [exact Hb|].
  destruct (Get_skips_expired_prefix Demo.mixed Demo.close_conn
              [mkIdle (Some 0%nat) 100; mkIdle (Some 1%nat) 100]
              [mkIdle (Some 7%nat) 150] 0 Ho) as (Hserved & _).
  - by_run.
  - by_run.
  - by_run.
  - intros c w. simpl. apply Z.le_refl.
  - exact Hb.
  - repeat constructor; try discriminate; by_run.
  - eexists. split; [apply (Hserved _ [] eq_refl); vm_compute; discriminate|].
    split; reflexivity.
Defined.

(** X8 on [Demo.timed]: resource 7 is returned at time 100 and borrowed at
    time 110, the timeout being 10. *)
Lemma Put_then_Get_within_timeout_witness :
  open_pool Demo.timed /\
  exists s1,
    Put (Some 7%nat) Demo.timed = Ok None s1 /\
    Get 1 (with_world (110, O) s1) = Ok (Some 7%nat, None) (with_world (110, O) Demo.timed).
Proof.
  assert (Ho : open_pool Demo.timed) by demo_open.
  split; [exact Ho|].
  apply (Put_then_Get_within_timeout Demo.timed (Some 7%nat) (110, O) 0 Ho).
  - discriminate.
  - by_run.
  - by_run.
  - by_run.
  - vm_compute. discriminate.
Defined.


(** X10 on [Demo.guarded], whose validation rejects every resource. *)
Lemma Get_rejecting_validation_drains_witness :
  open_pool Demo.guarded /\ ping (pool Demo.guarded) = Some Demo.ping_down /\
  exists r s',
    Get 2 Demo.guarded = Ok r s' /\ buf (store s') = [] /\
    close_calls (trace s') = close_calls (trace Demo.guarded).
Proof.
  assert (Ho : open_pool Demo.guarded) by demo_open.
  assert (Hp : ping (pool Demo.guarded) = Some Demo.ping_down) by by_run.
  split; [exact Ho|]. split; [exact Hp|].
  destruct (Get_rejecting_validation_drains Demo.guarded Demo.ping_down 2 Ho Hp)
    as (f & w1 & s' & _ & Hrun & _ & Hb & Hc & _).
  - intros c w. discriminate.
  - vm_compute. discriminate.
  - vm_compute. lia.
  - eexists. exists s'. split; [exact Hrun|]. auto.
Defined.

(** X11 on [Demo.warm], whose store holds resources 0 and 1, and on
    [Demo.warm] with its mutex held. *)
Lemma Put_keeps_store_free_of_nil_witness :
  Forall (fun e => conn e <> None) (buf (store Demo.warm)) /\
  Put (Some 7%nat) Demo.warm = Ok None (Demo.after (Put (Some 7%nat) Demo.warm)) /\
  Forall (fun e => conn e <> None)
    (buf (store (Demo.after (Put (Some 7%nat) Demo.warm)))) /\
  Put None (with_pool (set_mu true (pool Demo.warm)) Demo.warm)
  = Ok (Some ErrNilConn) (with_pool (set_mu true (pool Demo.warm)) Demo.warm) /\
  Put (Some 7%nat) (with_pool (set_mu true (pool Demo.warm)) Demo.warm) = Deadlock.
Proof.
  assert (Hall : Forall (fun e => conn e <> None) (buf (store Demo.warm)))
    by (vm_compute; repeat constructor; discriminate).
  assert (Hrun : Put (Some 7%nat) Demo.warm
                 = Ok None (Demo.after (Put (Some 7%nat) Demo.warm))) by by_run.
  split; [exact Hall|]. split; [exact Hrun|].
  split.
  - exact (proj2 (proj2 (Put_keeps_store_free_of_nil Demo.warm (Some 7%nat))) None _ Hall Hrun).
  - destruct (Put_keeps_store_free_of_nil
                (with_pool (set_mu true (pool Demo.warm)) Demo.warm) (Some 7%nat))
      as (Hnil & Hblock & _).
    split; [exact Hnil|]. apply Hblock; [by_run | discriminate].
Defined.

(** X12 on [Demo.warm]: resource 0 is discarded while idle and borrowed
    afterwards. *)
Lemma Close_leaves_idle_entry_witness :
  open_pool Demo.warm /\
  buf (store Demo.warm) = [mkIdle (Some 0%nat) 100; mkIdle (Some 1%nat) 100] /\
  exists s1 s2,
    Close (Some 0%nat) Demo.warm = Ok None s1 /\
    trace s1 = trace Demo.warm ++ [EvClose (Some 0%nat)] /\
    Get 1 s1 = Ok (Some 0%nat, None) s2.
Proof.
  assert (Ho : open_pool Demo.warm) by demo_open.
  assert (Hb : buf (store Demo.warm)
               = [mkIdle (Some 0%nat) 100; mkIdle (Some 1%nat) 100]) by by_run.
  split; [exact Ho|]. split; [exact Hb|].
  destruct (Close_leaves_idle_entry Demo.warm (mkIdle (Some 0%nat) 100)
              [mkIdle (Some 1%nat) 100] Demo.close_conn 0 Ho)
    as (s1 & Hclose & _ & Htr & Hget).
  - by_run.
  - vm_compute. discriminate.
  - by_run.
  - exact Hb.
  - discriminate.
  - exists s1. eexists. split; [exact Hclose|]. split; [exact Htr | exact Hget].
Defined.

(** X13 on [Demo.blank]: resource 7 is returned twice and destroyed twice. *)
Lemma Puts_then_Release_destroys_each_witness :
  open_pool Demo.blank /\
  exists s1 s2,
    put_all [Some 7%nat; Some 7%nat] Demo.blank = Ok [None; None] s1 /\
    Release s1 = Ok tt s2 /\
    trace s2 = trace Demo.blank ++ [EvClose (Some 7%nat); EvClose (Some 7%nat)].
Proof.
  assert (Ho : open_pool Demo.blank) by demo_open.
  split; [exact Ho|].
  destruct (Puts_then_Release_destroys_each Demo.blank [Some 7%nat; Some 7%nat]
              Demo.close_conn Ho)
    as (s1 & s2 & Hput & Hrel & _ & Htr).
  - by_run.
  - repeat constructor; discriminate.
  - vm_compute. discriminate.
  - exists s1, s2. split; [exact Hput|]. split; [exact Hrel|].
    rewrite Htr. f_equal.
Defined.

(** X14 on [Demo.blank], of capacity 3: five borrows create resources 0 to
    4. *)
Lemma Gets_on_empty_store_create_witness :
  open_pool Demo.blank /\
  exists s',
    get_n 1 5 Demo.blank
    = Ok [(Some 0%nat, None); (Some 1%nat, None); (Some 2%nat, None);
          (Some 3%nat, None); (Some 4%nat, None)] s' /\
    store s' = store Demo.blank /\
    factory_calls (trace s') = (factory_calls (trace Demo.blank) + 5)%nat.
Proof.
  assert (Ho : open_pool Demo.blank) by demo_open.
  split; [exact Ho|].
  destruct (Gets_on_empty_store_create Demo.blank Demo.new_conn 5
              [mkIdle (Some 0%nat) 100; mkIdle (Some 1%nat) 100; mkIdle (Some 2%nat) 100;
               mkIdle (Some 3%nat) 100; mkIdle (Some 4%nat) 100] (100, 5%nat) 0 Ho)
    as (s' & Hrun & _ & Hst & _ & Hf & _).
  - by_run.
  - by_run.
  - by_run.
  - exists s'. split; [exact Hrun|]. split; [exact Hst | exact Hf].
Defined.
